(** * The partition table reader of components/spi_flash/partition.c

    A shallow embedding of the partition API (esp_partition_find,
    esp_partition_next, esp_partition_find_first, esp_partition_get,
    esp_partition_iterator_release and the loader load_partitions) together
    with the properties its specification states about it.

    Conventions of the embedding:
    - C integers are [Z]; a byte of a label is a [Byte.byte];
    - a C string is the list of the bytes of its buffer, read up to the first
      zero byte (the end of the list stands for a terminator as well);
    - the singly linked list s_partition_list is a Coq list, head first; a
      pointer to one of its nodes is the sub-list that starts at that node and
      NULL is the empty list;
    - iterators live in a heap of malloc-ed cells; an operation that the C
      standard leaves undefined (a failed assert, the use of a freed iterator,
      a double free) has no result ([None]);
    - _lock_acquire and _lock_release are not modelled: every operation runs
      alone from its call to its return. *)

From Stdlib Require Import ZArith List Bool Lia Permutation.
From Stdlib.Strings Require Import Byte.
From stdpp Require Import base option gmap.
Import ListNotations.

Local Open Scope Z_scope.

(** ** Types of the headers *)

(** Modelled from the spec: esp_flash_data_types.h is not part of the sources;
    the on-flash descriptor has the fields of the layout table of the
    specification (magic, type, subtype, offset, size, label, flags), and
    partition.c reads them as [it->magic], [it->type], [it->subtype],
    [it->pos.offset], [it->pos.size] and [it->label]. *)
Record esp_partition_info_t := mk_info {
  magic : Z;              (* uint16_t *)
  type_ : Z;              (* uint8_t, major type *)
  subtype : Z;            (* uint8_t, minor type *)
  pos_offset : Z;         (* uint32_t *)
  pos_size : Z;           (* uint32_t *)
  info_label : list Byte.byte;  (* uint8_t [16], may lack a terminator *)
  reserved : list Byte.byte     (* 4 bytes, never read *)
}.

(** Modelled from the spec: the layout table gives the label field 16 bytes
    and the whole descriptor 2 + 1 + 1 + 4 + 4 + 16 + 4 = 32 bytes. *)
Definition sizeof_info_label : nat := 16.
Definition sizeof_esp_partition_info_t : Z := 32.

(** esp_partition_t, as partition.c fills it; [label] is the whole buffer,
    of [sizeof_info_label + 1] bytes once load_partitions has written it. *)
Record esp_partition_t := mk_partition {
  type : Z;               (* esp_partition_type_t: (major << 8) | minor *)
  address : Z;
  size : Z;
  label : list Byte.byte;
  encrypted : bool
}.

(** partition_list_item_t: the [next] link is the tail of the Coq list. *)
Record partition_list_item_t := mk_item { info : esp_partition_t }.

(** esp_err_t is a C int; esp_err.h, which is not part of the sources,
    gives ESP_OK the value 0. partition.c only compares error codes with it. *)
Definition ESP_OK : Z := 0.

(** ** Type keys *)

Definition get_major_type (t : Z) : Z := Z.land (Z.shiftr t 8) 255.

Definition get_minor_type (t : Z) : Z := Z.land t 255.

(** ** C strings *)

Definition byte_val (c : Byte.byte) : Z := Z.of_N (Byte.to_N c).

Definition is_nul (c : Byte.byte) : bool := byte_val c =? 0.

(** The characters of a C string: the bytes before the first terminator. *)
Fixpoint cstr (s : list Byte.byte) : list Byte.byte :=
  match s with
  | [] => []
  | c :: r => if is_nul c then [] else c :: cstr r
  end.

Definition char_at (s : list Byte.byte) : Z :=
  match s with
  | [] => 0
  | c :: _ => byte_val c
  end.

(** strcmp: the difference of the first pair of bytes that differ, 0 when
    both strings end together. *)
Fixpoint strcmp (s1 s2 : list Byte.byte) : Z :=
  match s1 with
  | [] => 0 - char_at s2
  | c1 :: r1 =>
      if byte_val c1 =? char_at s2
      then if is_nul c1 then 0 else strcmp r1 (tl s2)
      else byte_val c1 - char_at s2
  end.

(** strncpy dst src n, as the n bytes it leaves in dst: the bytes of src up
    to its terminator, then zero bytes up to n. *)
Fixpoint strncpy (src : list Byte.byte) (n : nat) : list Byte.byte :=
  match n with
  | O => []
  | S n' =>
      match src with
      | [] => Byte.x00 :: strncpy [] n'
      | c :: r =>
          if is_nul c then Byte.x00 :: strncpy [] n' else c :: strncpy r n'
      end
  end.

(** ** The state of the module and of its callers *)

(** esp_partition_iterator_opaque_t. [next_item] and [it_info] point into
    s_partition_list: the first as the sub-list from the node on, the second
    as the record of the node. *)
Record esp_partition_iterator_opaque_t := mk_iterator {
  it_type : Z;                              (* requested type *)
  it_label : option (list Byte.byte);       (* requested label, None is NULL *)
  next_item : list partition_list_item_t;   (* next item to iterate to *)
  it_info : option esp_partition_t          (* current record, None is NULL *)
}.

(** esp_partition_iterator_t: NULL or the address of a malloc-ed iterator. *)
Definition esp_partition_iterator_t : Type := option positive.

Definition NULL {A : Type} : option A := None.

(** The static list, the malloc-ed iterators, and a ghost counter of the
    executions of load_partitions. *)
Record state := mk_state {
  s_partition_list : list partition_list_item_t;
  heap : gmap positive esp_partition_iterator_opaque_t;
  load_count : nat
}.

(** What spi_flash_mmap hands back to load_partitions: its error code and,
    through [ptr], the mapped memory. [mmap_table i] is the descriptor number
    [i] counted from the address load_partitions computes for the table,
    [ptr + (ESP_PARTITION_TABLE_ADDR & 0xffff) / sizeof( *ptr)]. *)
Record mmap_result := mk_mmap {
  mmap_err : Z;
  mmap_table : nat -> esp_partition_info_t
}.

(** ** A state and error monad *)

Definition M (A : Type) : Type := state -> option (A * state).

Definition ret {A : Type} (a : A) : M A := fun st => Some (a, st).

Definition bind {A B : Type} (m : M A) (k : A -> M B) : M B :=
  fun st => match m st with
            | Some (a, st') => k a st'
            | None => None
            end.

(** Undefined behaviour. *)
Definition undefined {A : Type} : M A := fun _ => None.

Notation "'do' x <- c ; k" := (bind c (fun x => k))
  (at level 10, x name, c at level 100, k at level 200).
Notation "'exec' c ; k" := (bind c (fun _ => k))
  (at level 10, c at level 100, k at level 200).

Definition gets {A : Type} (f : state -> A) : M A := fun st => Some (f st, st).

Definition modify (f : state -> state) : M unit := fun st => Some (tt, f st).

Definition set_list (l : list partition_list_item_t) (st : state) : state :=
  mk_state l (heap st) (load_count st).

Definition set_heap (h : gmap positive esp_partition_iterator_opaque_t)
  (st : state) : state :=
  mk_state (s_partition_list st) h (load_count st).

Definition count_load (st : state) : state :=
  mk_state (s_partition_list st) (heap st) (S (load_count st)).

(** malloc of an iterator: a cell that is not in use, with the given
    contents (the C code initialises every field right after the call).
    The allocation is taken to succeed: iterator_create does not test it. *)
Definition malloc (v : esp_partition_iterator_opaque_t) : M positive :=
  fun st => let l := fresh (dom (heap st)) in
            Some (l, set_heap (<[l := v]> (heap st)) st).

(** free: nothing for NULL, the release of a live cell, undefined otherwise. *)
Definition free (p : esp_partition_iterator_t) : M unit :=
  match p with
  | None => ret tt
  | Some l => fun st => match heap st !! l with
                        | Some _ => Some (tt, set_heap (delete l (heap st)) st)
                        | None => None
                        end
  end.

(** Reading and writing the fields of a live iterator. *)
Definition deref (l : positive) : M esp_partition_iterator_opaque_t :=
  fun st => match heap st !! l with
            | Some v => Some (v, st)
            | None => None
            end.

Definition store (l : positive) (v : esp_partition_iterator_opaque_t)
  : M unit :=
  fun st => match heap st !! l with
            | Some _ => Some (tt, set_heap (<[l := v]> (heap st)) st)
            | None => None
            end.

(** ** Queue macros *)

Definition SLIST_EMPTY (head : list partition_list_item_t) : bool :=
  match head with [] => true | _ => false end.

Definition SLIST_FIRST (head : list partition_list_item_t)
  : list partition_list_item_t := head.

Definition SLIST_NEXT (elm : list partition_list_item_t)
  : list partition_list_item_t := tl elm.

Definition SLIST_INSERT_HEAD (head : list partition_list_item_t)
  (elm : partition_list_item_t) : list partition_list_item_t := elm :: head.

(** [slistelm] is given by its position in the list. *)
Definition SLIST_INSERT_AFTER (head : list partition_list_item_t)
  (slistelm : nat) (elm : partition_list_item_t) : list partition_list_item_t :=
  firstn (S slistelm) head ++ elm :: skipn (S slistelm) head.

(** ** The iterator *)

Definition esp_partition_iterator_release (iterator : esp_partition_iterator_t)
  : M unit :=
  (* iterator == NULL is okay *)
  free iterator.

Definition esp_partition_get (iterator : esp_partition_iterator_t)
  : M (option esp_partition_t) :=
  match iterator with
  | None => undefined                        (* assert(iterator != NULL) *)
  | Some l => do v <- deref l; ret (it_info v)
  end.

(** The accessors: the fields of the current record of the iterator; no
    result when the iterator has none. *)
Definition current {A : Type} (f : esp_partition_t -> A)
  (iterator : esp_partition_iterator_t) : M A :=
  do p <- esp_partition_get iterator;
  match p with
  | Some r => ret (f r)
  | None => undefined
  end.

Definition esp_partition_type : esp_partition_iterator_t -> M Z :=
  current type.

Definition esp_partition_size : esp_partition_iterator_t -> M Z :=
  current size.

Definition esp_partition_address : esp_partition_iterator_t -> M Z :=
  current address.

Definition esp_partition_label
  : esp_partition_iterator_t -> M (list Byte.byte) :=
  current label.

(** One test of the loop of esp_partition_next: [true] when the loop
    continues to the next item, [false] when it breaks out at [p]. *)
Definition continues (req_type : Z) (req_label : option (list Byte.byte))
  (p : esp_partition_t) : bool :=
  let requested_major_type := get_major_type req_type in
  let requested_minor_type := get_minor_type req_type in
  let it_major_type := get_major_type (type p) in
  let it_minor_type := get_minor_type (type p) in
  if negb (requested_major_type =? it_major_type) then true
  else if negb (requested_minor_type =? 255)
          && negb (requested_minor_type =? it_minor_type) then true
  else match req_label with
       | Some l => if negb (strcmp l (label p) =? 0) then true else false
       | None => false
       end.

(** The for loop of esp_partition_next, as the value of [it->next_item]
    when it ends. *)
Fixpoint scan (req_type : Z) (req_label : option (list Byte.byte))
  (next : list partition_list_item_t) : list partition_list_item_t :=
  match next with
  | [] => []
  | item :: rest =>
      if continues req_type req_label (info item)
      then scan req_type req_label rest
      else next
  end.

Definition esp_partition_next (it : esp_partition_iterator_t)
  : M esp_partition_iterator_t :=
  match it with
  | None => undefined                        (* assert(it) *)
  | Some l =>
      do v <- deref l;
      (* iterator reached the end of linked list? *)
      if SLIST_EMPTY (next_item v) then ret NULL
      else
        let found := scan (it_type v) (it_label v) (next_item v) in
        exec store l (mk_iterator (it_type v) (it_label v) found (it_info v));
        match found with
        | [] => exec esp_partition_iterator_release it; ret NULL
        | item :: _ =>
            exec store l (mk_iterator (it_type v) (it_label v)
                            (SLIST_NEXT found) (Some (info item)));
            ret it
        end
  end.

Definition iterator_create (type : Z) (label : option (list Byte.byte))
  : M esp_partition_iterator_t :=
  do lst <- gets s_partition_list;
  do l <- malloc (mk_iterator type label (SLIST_FIRST lst) NULL);
  ret (Some l).

(** ** The loader and the queries

    ESP_PARTITION_MAGIC and SPI_FLASH_SEC_SIZE come from headers that are not
    part of the sources; the development is parametric in them. *)

Section Partition.

Variable ESP_PARTITION_MAGIC : Z.
Variable SPI_FLASH_SEC_SIZE : Z.

(** [end - it] at the start of the loop of load_partitions:
    SPI_FLASH_SEC_SIZE / sizeof( *it). *)
Definition slot_count : nat :=
  Z.to_nat (SPI_FLASH_SEC_SIZE / sizeof_esp_partition_info_t).

(** The list item that load_partitions builds from the descriptor [it]. *)
Definition new_item (it : esp_partition_info_t) : partition_list_item_t :=
  mk_item
    {| address := pos_offset it;
       size := pos_size it;
       type := Z.lor (Z.shiftl (type_ it) 8) (subtype it);
       encrypted := false;
       (* strncpy(item->info.label, it->label, sizeof(it->label));
          item->info.label[sizeof(it->label)] = 0; *)
       label := strncpy (info_label it) sizeof_info_label ++ [Byte.x00] |}.

(** The loop of load_partitions: [it] is the index of the descriptor under
    the pointer [it], [n] is [end - it], [last] is the position in the list
    of the node the variable [last] points to ([None] for NULL); the loop
    body never assigns [last]. The result is s_partition_list at the exit. *)
Fixpoint load_loop (table : nat -> esp_partition_info_t) (it : nat) (n : nat)
  (last : option nat) (lst : list partition_list_item_t)
  : list partition_list_item_t :=
  match n with
  | O => lst
  | S n' =>
      if negb (magic (table it) =? ESP_PARTITION_MAGIC) then lst
      else
        let item := new_item (table it) in
        let lst' := match last with
                    | None => SLIST_INSERT_HEAD lst item
                    | Some l => SLIST_INSERT_AFTER lst l item
                    end in
        load_loop table (S it) n' last lst'
  end.

(** [mm] is the outcome of the call of spi_flash_mmap. *)
Definition load_partitions (mm : mmap_result) : M Z :=
  exec modify count_load;
  if negb (mmap_err mm =? ESP_OK) then ret (mmap_err mm)
  else
    (* tail of the linked list of partitions *)
    let last : option nat := NULL in
    do lst <- gets s_partition_list;
    exec modify (set_list (load_loop (mmap_table mm) 0 slot_count last lst));
    ret ESP_OK.

(** [mm] is what spi_flash_mmap returns if this call reaches it. *)
Definition esp_partition_find (mm : mmap_result) (type : Z)
  (label : option (list Byte.byte)) : M esp_partition_iterator_t :=
  do lst <- gets s_partition_list;
  do err <- (if SLIST_EMPTY lst then
               (* only lock if list is empty (and check again) *)
               do lst' <- gets s_partition_list;
               if SLIST_EMPTY lst' then load_partitions mm else ret ESP_OK
             else ret ESP_OK);
  if negb (err =? ESP_OK) then ret NULL
  else
    (* create an iterator pointing to the start of the list *)
    do it <- iterator_create type label;
    (* advance iterator to the next item which matches constraints *)
    esp_partition_next it.

Definition esp_partition_find_first (mm : mmap_result) (type : Z)
  (label : option (list Byte.byte)) : M (option esp_partition_t) :=
  do it <- esp_partition_find mm type label;
  match it with
  | None => ret NULL
  | Some _ =>
      do res <- esp_partition_get it;
      exec esp_partition_iterator_release it;
      ret res
  end.

(** The number of leading descriptors with the expected magic among the [n]
    descriptors from [it] on: where the loop of load_partitions stops. *)
Fixpoint valid_slots (table : nat -> esp_partition_info_t) (it : nat) (n : nat)
  : nat :=
  match n with
  | O => O
  | S n' =>
      if magic (table it) =? ESP_PARTITION_MAGIC
      then S (valid_slots table (S it) n')
      else O
  end.

(** The state in which esp_partition_find creates its iterator, when it gets
    that far: after the load if the list was empty, unchanged otherwise. *)
Definition loaded (mm : mmap_result) (st : state) : state :=
  if SLIST_EMPTY (s_partition_list st) then
    if negb (mmap_err mm =? ESP_OK) then count_load st
    else set_list (load_loop (mmap_table mm) 0 slot_count NULL
                     (s_partition_list st)) (count_load st)
  else st.

End Partition.

(** ** Drivers: the callers of the API *)

Section Drivers.

Variable ESP_PARTITION_MAGIC : Z.
Variable SPI_FLASH_SEC_SIZE : Z.

(** [n] further calls of esp_partition_next on [it], each followed by
    esp_partition_get when it returns an iterator. The result lists what each
    call yields: [Some r] for a record, [None] for the NULL that ends the
    iteration (no call is made after it). *)
Fixpoint iterate (n : nat) (it : esp_partition_iterator_t)
  : M (list (option esp_partition_t)) :=
  match n with
  | O => ret []
  | S n' =>
      do it' <- esp_partition_next it;
      match it' with
      | None => ret [None]
      | Some _ =>
          do p <- esp_partition_get it';
          do rest <- iterate n' it';
          ret (p :: rest)
      end
  end.

(** esp_partition_find followed by esp_partition_next, [calls] calls in all. *)
Definition enumerate (mm : mmap_result) (type : Z)
  (label : option (list Byte.byte)) (calls : nat)
  : M (list (option esp_partition_t)) :=
  match calls with
  | O => ret []
  | S n =>
      do it <- esp_partition_find ESP_PARTITION_MAGIC SPI_FLASH_SEC_SIZE
                 mm type label;
      match it with
      | None => ret [None]
      | Some _ =>
          do p <- esp_partition_get it;
          do rest <- iterate n it;
          ret (p :: rest)
      end
  end.

(** A call of the public API, with the outcome spi_flash_mmap would have. *)
Inductive call :=
  | Find (mm : mmap_result) (type : Z) (label : option (list Byte.byte))
  | FindFirst (mm : mmap_result) (type : Z) (label : option (list Byte.byte))
  | Next (it : esp_partition_iterator_t)
  | Get (it : esp_partition_iterator_t)
  | Release (it : esp_partition_iterator_t).

Definition run_call (c : call) : M unit :=
  match c with
  | Find mm t l =>
      exec esp_partition_find ESP_PARTITION_MAGIC SPI_FLASH_SEC_SIZE mm t l;
      ret tt
  | FindFirst mm t l =>
      exec esp_partition_find_first ESP_PARTITION_MAGIC SPI_FLASH_SEC_SIZE
             mm t l;
      ret tt
  | Next it => exec esp_partition_next it; ret tt
  | Get it => exec esp_partition_get it; ret tt
  | Release it => esp_partition_iterator_release it
  end.

Fixpoint run_calls (cs : list call) : M unit :=
  match cs with
  | [] => ret tt
  | c :: cs' => exec run_call c; run_calls cs'
  end.

(** The mapping of the call, if it needs one, succeeds. *)
Definition mmap_ok (c : call) : Prop :=
  match c with
  | Find mm _ _ | FindFirst mm _ _ => mmap_err mm = ESP_OK
  | _ => True
  end.

(** The queries among the calls. *)
Definition is_query (c : call) : Prop :=
  match c with
  | Find _ _ _ | FindFirst _ _ _ => True
  | _ => False
  end.

End Drivers.

(** An operation that leaves s_partition_list and the count of loads as they
    are whenever it has a result. *)
Definition preserves {A : Type} (m : M A) : Prop :=
  forall st a st',
    m st = Some (a, st') ->
    s_partition_list st' = s_partition_list st
    /\ load_count st' = load_count st.

(** ** The matcher and findFirst in the words of the specification *)

(** The record is accepted when its major type is the requested one, the
    requested minor type is the wildcard 0xFF or the record's, and the label
    filter is absent or byte for byte the record's label. *)
Definition spec_accepts (major minor : Z) (lbl : option (list Byte.byte))
  (r : esp_partition_t) : bool :=
  (get_major_type (type r) =? major)
  && ((minor =? 255) || (get_minor_type (type r) =? minor))
  && match lbl with
     | None => true
     | Some l =>
         if List.list_eq_dec Byte.byte_eq_dec (cstr (label r)) (cstr l)
         then true else false
     end.

(** findFirst: the first record of the table that the matcher accepts. *)
Definition spec_findFirst (table : list esp_partition_t) (t : Z)
  (lbl : option (list Byte.byte)) : option esp_partition_t :=
  List.find (spec_accepts (get_major_type t) (get_minor_type t) lbl) table.

(** ** Sample tables *)

Definition sample_magic : Z := 0x50AA.
Definition sample_sec_size : Z := 4096.

(** Erased flash: every byte is 0xFF. *)
Definition erased : esp_partition_info_t :=
  mk_info 0xFFFF 0xFF 0xFF 0xFFFFFFFF 0xFFFFFFFF
    (repeat Byte.xff 16) (repeat Byte.xff 4).

Definition table_of (l : list esp_partition_info_t)
  : nat -> esp_partition_info_t :=
  fun i => nth i l erased.

Definition pad16 (s : list Byte.byte) : list Byte.byte :=
  s ++ repeat Byte.x00 (16 - length s).

(** "factory", "nvs", "phy_init" *)
Definition lbl_factory : list Byte.byte :=
  [Byte.x66; Byte.x61; Byte.x63; Byte.x74; Byte.x6f; Byte.x72; Byte.x79].
Definition lbl_nvs : list Byte.byte := [Byte.x6e; Byte.x76; Byte.x73].
Definition lbl_phy : list Byte.byte :=
  [Byte.x70; Byte.x68; Byte.x79; Byte.x5f; Byte.x69; Byte.x6e; Byte.x69;
   Byte.x74].
(** "ABCDEFGHIJKLMNO", 15 characters *)
Definition lbl_15 : list Byte.byte :=
  [Byte.x41; Byte.x42; Byte.x43; Byte.x44; Byte.x45; Byte.x46; Byte.x47;
   Byte.x48; Byte.x49; Byte.x4a; Byte.x4b; Byte.x4c; Byte.x4d; Byte.x4e;
   Byte.x4f].

(** An application image, and two data partitions. *)
Definition d_factory : esp_partition_info_t :=
  mk_info sample_magic 0 0 0x10000 0x100000 (pad16 lbl_factory)
    (repeat Byte.x00 4).
Definition d_nvs : esp_partition_info_t :=
  mk_info sample_magic 1 2 0x9000 0x6000 (pad16 lbl_nvs) (repeat Byte.x00 4).
Definition d_phy : esp_partition_info_t :=
  mk_info sample_magic 1 1 0xf000 0x1000 (pad16 lbl_phy) (repeat Byte.x00 4).
(** A second application image, "ota_0". *)
Definition lbl_ota0 : list Byte.byte :=
  [Byte.x6f; Byte.x74; Byte.x61; Byte.x5f; Byte.x30].
Definition d_ota0 : esp_partition_info_t :=
  mk_info sample_magic 0 0x10 0x110000 0x100000 (pad16 lbl_ota0)
    (repeat Byte.x00 4).
(** A descriptor whose label field has no terminator: 15 characters and a
    last byte 0xFF. *)
Definition d_full : esp_partition_info_t :=
  mk_info sample_magic 1 2 0x9000 0x6000 (lbl_15 ++ [Byte.xff])
    (repeat Byte.x00 4).

Definition mmap_of (l : list esp_partition_info_t) : mmap_result :=
  mk_mmap ESP_OK (table_of l).

(** The state at start-up: an empty list and no iterator. *)
Definition initial_state : state := mk_state [] ∅ 0.

Definition ESP_PARTITION_APP_ANY : Z := 0x00ff.
Definition ESP_PARTITION_DATA_ANY : Z := 0x01ff.

(** The state after a first query on a table of three partitions. *)
Definition sample_loaded : state :=
  loaded sample_magic sample_sec_size (mmap_of [d_factory; d_nvs; d_phy])
    initial_state.

(** A mapping that fails (0x101 is ESP_ERR_NO_MEM in esp_err.h). *)
Definition mmap_failed : mmap_result := mk_mmap 0x101 (table_of []).

(** ** Iterators and the list *)

(** Every live iterator points into s_partition_list: [next_item] is a node
    of the list or NULL, and the current record, if any, is a record of the
    list. *)
Definition iterators_in_list (st : state) : Prop :=
  forall l v,
    heap st !! l = Some v ->
    (exists pre, s_partition_list st = pre ++ next_item v)
    /\ (forall r, it_info v = Some r -> In r (map info (s_partition_list st))).

(** The state after two queries on the sample table, which leave two live
    iterators: one on the data partitions, one on the application images. *)
Definition sample_two_iterators : state :=
  match run_calls sample_magic sample_sec_size
          [Find (mmap_of [d_factory; d_nvs; d_phy]) ESP_PARTITION_DATA_ANY None;
           Find (mmap_of [d_factory; d_nvs; d_phy]) ESP_PARTITION_APP_ANY None]
          initial_state with
  | Some (_, st) => st
  | None => initial_state
  end.

(** A label of 17 characters. *)
Definition lbl_17 : list Byte.byte := lbl_15 ++ [Byte.x50; Byte.x51].

(** The list holds at most as many items as the sector has descriptors, and
    each is the item of a descriptor with the expected magic. *)
Definition table_from_flash (ESP_PARTITION_MAGIC SPI_FLASH_SEC_SIZE : Z)
  (st : state) : Prop :=
  (length (s_partition_list st) <= slot_count SPI_FLASH_SEC_SIZE)%nat
  /\ forall item,
       In item (s_partition_list st) ->
       exists d, magic d = ESP_PARTITION_MAGIC /\ item = new_item d.

(** * Properties *)

(** ** Type keys *)

Lemma get_major_lor_shiftl (t s : Z) :
  0 <= t < 256 -> 0 <= s < 256 ->
  get_major_type (Z.lor (Z.shiftl t 8) s) = t.
Proof.
  intros Ht Hs. unfold get_major_type.
  rewrite Z.shiftr_lor, Z.shiftr_shiftl_l by lia.
  replace (8 - 8) with 0 by lia. rewrite Z.shiftl_0_r.
  rewrite (Z.shiftr_div_pow2 s 8) by lia.
  rewrite (Z.div_small s (2 ^ 8)) by lia.
  rewrite Z.lor_0_r.
  change 255 with (Z.ones 8). rewrite Z.land_ones by lia.
  apply Z.mod_small. lia.
Qed.

Lemma get_minor_lor_shiftl (t s : Z) :
  0 <= t < 256 -> 0 <= s < 256 ->
  get_minor_type (Z.lor (Z.shiftl t 8) s) = s.
Proof.
  intros Ht Hs. unfold get_minor_type.
  change 255 with (Z.ones 8).
  rewrite Z.land_lor_distr_l.
  rewrite !Z.land_ones by lia.
  rewrite Z.shiftl_mul_pow2 by lia.
  rewrite Z.mod_mul by lia.
  rewrite Z.lor_0_l. apply Z.mod_small. lia.
Qed.

(** C10: for bytes t and s, the key (t << 8) | s that load_partitions stores
    in a record gives back t through get_major_type and s through
    get_minor_type. *)
Theorem type_key_roundtrip (d : esp_partition_info_t) :
  0 <= type_ d < 256 -> 0 <= subtype d < 256 ->
  type (info (new_item d)) = Z.lor (Z.shiftl (type_ d) 8) (subtype d)
  /\ get_major_type (type (info (new_item d))) = type_ d
  /\ get_minor_type (type (info (new_item d))) = subtype d.
Proof.
  intros Ht Hs. cbn [new_item info type].
  split; [reflexivity|].
  split; [apply get_major_lor_shiftl | apply get_minor_lor_shiftl]; assumption.
Qed.

Lemma type_key_roundtrip_witness :
  get_major_type (type (info (new_item d_nvs))) = 1
  /\ get_minor_type (type (info (new_item d_nvs))) = 2.
Proof.
  assert (H1 : 0 <= type_ d_nvs < 256) by (cbn; lia).
  assert (H2 : 0 <= subtype d_nvs < 256) by (cbn; lia).
  destruct (type_key_roundtrip d_nvs H1 H2) as (_ & Hmaj & Hmin).
  split; [exact Hmaj | exact Hmin].
Defined.

(** ** C strings *)

Lemma byte_val_nonneg (c : Byte.byte) : 0 <= byte_val c.
Proof. unfold byte_val. lia. Qed.

Lemma byte_val_inj (c1 c2 : Byte.byte) : byte_val c1 = byte_val c2 -> c1 = c2.
Proof.
  unfold byte_val. intros H. apply N2Z.inj in H.
  pose proof (Byte.of_to_N c1) as H1. pose proof (Byte.of_to_N c2) as H2.
  rewrite H in H1. congruence.
Qed.

Lemma char_at_nonneg (s : list Byte.byte) : 0 <= char_at s.
Proof. destruct s; cbn; [lia | apply byte_val_nonneg]. Qed.

Lemma char_at_zero (s : list Byte.byte) : char_at s = 0 <-> cstr s = [].
Proof.
  destruct s as [|c r]; cbn; [tauto|].
  unfold is_nul. destruct (Z.eqb_spec (byte_val c) 0); split; congruence.
Qed.

Lemma strcmp_zero (s1 s2 : list Byte.byte) :
  strcmp s1 s2 = 0 <-> cstr s1 = cstr s2.
Proof.
  revert s2. induction s1 as [|c1 r1 IH]; intros s2.
  - cbn [strcmp cstr]. split; intros H.
    + symmetry. apply char_at_zero. lia.
    + symmetry in H. apply char_at_zero in H. lia.
  - cbn [strcmp cstr]. unfold is_nul.
    destruct (Z.eqb_spec (byte_val c1) (char_at s2)) as [He|Hne].
    + destruct (Z.eqb_spec (byte_val c1) 0) as [Hz|Hnz].
      * assert (Hs2 : cstr s2 = []) by (apply char_at_zero; lia).
        rewrite Hs2. tauto.
      * destruct s2 as [|c2 r2]; cbn in He; [lia|].
        apply byte_val_inj in He. subst c2.
        cbn [tl cstr]. unfold is_nul.
        destruct (Z.eqb_spec (byte_val c1) 0); [contradiction|].
        rewrite IH. split; intros H; [f_equal; exact H | congruence].
    + split; intros H; [lia|]. exfalso.
      destruct (Z.eqb_spec (byte_val c1) 0) as [Hz|Hnz].
      * symmetry in H. apply char_at_zero in H. lia.
      * destruct s2 as [|c2 r2]; cbn in H; [discriminate|].
        unfold is_nul in H.
        destruct (Z.eqb_spec (byte_val c2) 0); [discriminate|].
        injection H as Hc _. subst c2. cbn in Hne. lia.
Qed.

Lemma cstr_no_nul (s : list Byte.byte) :
  Forall (fun c => is_nul c = false) s -> cstr s = s.
Proof.
  induction 1 as [|c r Hc _ IH]; cbn; [reflexivity|].
  rewrite Hc, IH. reflexivity.
Qed.

Lemma cstr_app_nul (s r : list Byte.byte) :
  Forall (fun c => is_nul c = false) s -> cstr (s ++ Byte.x00 :: r) = s.
Proof.
  induction 1 as [|c s' Hc _ IH]; cbn; [reflexivity|].
  rewrite Hc, IH. reflexivity.
Qed.

Lemma cstr_length (s : list Byte.byte) : (length (cstr s) <= length s)%nat.
Proof.
  induction s as [|c r IH]; cbn; [lia|].
  destruct (is_nul c); cbn; lia.
Qed.

Lemma cstr_idem (s : list Byte.byte) : cstr (cstr s) = cstr s.
Proof.
  induction s as [|c r IH]; cbn; [reflexivity|].
  destruct (is_nul c) eqn:Hc; cbn; [reflexivity|].
  rewrite Hc, IH. reflexivity.
Qed.

Lemma strncpy_nil_length (n : nat) : length (strncpy [] n) = n.
Proof.
  induction n as [|n IH]; cbn; [reflexivity | rewrite IH; reflexivity].
Qed.

Lemma strncpy_length (src : list Byte.byte) (n : nat) :
  length (strncpy src n) = n.
Proof.
  revert src. induction n as [|n IH]; intros src; cbn; [reflexivity|].
  destruct src as [|c r]; cbn; [rewrite strncpy_nil_length; reflexivity|].
  destruct (is_nul c); cbn; [rewrite strncpy_nil_length | rewrite IH];
    reflexivity.
Qed.

(** The string strncpy leaves, once a terminator follows its [n] bytes, is
    the source string cut at [n] characters. *)
Lemma cstr_strncpy (src : list Byte.byte) (n : nat) :
  cstr (strncpy src n ++ [Byte.x00]) = firstn n (cstr src).
Proof.
  revert src. induction n as [|n IH]; intros src.
  - cbn. reflexivity.
  - destruct src as [|c r]; cbn [strncpy]; [cbn; reflexivity|].
    destruct (is_nul c) eqn:Hc.
    + cbn. rewrite Hc. reflexivity.
    + cbn. rewrite Hc. cbn. f_equal. apply IH.
Qed.

Lemma strncpy_no_nul (src : list Byte.byte) :
  Forall (fun c => is_nul c = false) src ->
  strncpy src (length src) = src.
Proof.
  induction 1 as [|c r Hc _ IH]; cbn; [reflexivity|].
  rewrite Hc, IH. reflexivity.
Qed.

(** ** The matcher *)

Lemma continues_spec_accepts (t : Z) (lbl : option (list Byte.byte))
  (r : esp_partition_t) :
  continues t lbl r
  = negb (spec_accepts (get_major_type t) (get_minor_type t) lbl r).
Proof.
  unfold continues, spec_accepts.
  rewrite (Z.eqb_sym (get_major_type (type r)) (get_major_type t)).
  rewrite (Z.eqb_sym (get_minor_type (type r)) (get_minor_type t)).
  destruct (get_major_type t =? get_major_type (type r)); cbn; [|reflexivity].
  destruct (get_minor_type t =? 255); cbn.
  - destruct lbl as [l|]; [|reflexivity].
    destruct (List.list_eq_dec Byte.byte_eq_dec (cstr (label r)) (cstr l))
      as [He|Hne]; destruct (Z.eqb_spec (strcmp l (label r)) 0) as [Hs|Hs];
      cbn; try reflexivity; exfalso.
    + apply Hs, strcmp_zero. congruence.
    + apply strcmp_zero in Hs. congruence.
  - destruct (get_minor_type t =? get_minor_type (type r)); cbn;
      [|reflexivity].
    destruct lbl as [l|]; [|reflexivity].
    destruct (List.list_eq_dec Byte.byte_eq_dec (cstr (label r)) (cstr l))
      as [He|Hne]; destruct (Z.eqb_spec (strcmp l (label r)) 0) as [Hs|Hs];
      cbn; try reflexivity; exfalso.
    + apply Hs, strcmp_zero. congruence.
    + apply strcmp_zero in Hs. congruence.
Qed.

(** C2: the loop of esp_partition_next stops at a record exactly when the
    record's major type is the requested one, the requested minor type is
    0xFF or the record's minor type, and the requested label is absent or
    equal, byte for byte, to the record's label. *)
Theorem matcher_accepts_iff (t : Z) (lbl : option (list Byte.byte))
  (r : esp_partition_t) :
  continues t lbl r = false <->
  get_major_type (type r) = get_major_type t
  /\ (get_minor_type t = 255 \/ get_minor_type (type r) = get_minor_type t)
  /\ (lbl = None \/ exists l, lbl = Some l /\ cstr (label r) = cstr l).
Proof.
  unfold continues.
  destruct (Z.eqb_spec (get_major_type t) (get_major_type (type r)))
    as [Hmaj|Hmaj]; cbn [negb].
  2:{ split; [discriminate|]. intros (H & _). congruence. }
  destruct (Z.eqb_spec (get_minor_type t) 255) as [Hw|Hw];
    destruct (Z.eqb_spec (get_minor_type t) (get_minor_type (type r)))
      as [Hmin|Hmin]; cbn [negb andb].
  4:{ split; [discriminate|]. intros (_ & [H|H] & _); congruence. }
  all: destruct lbl as [l|].
  all: try (split; [intros _|reflexivity];
            split; [congruence|]; split; [auto|left; reflexivity]).
  all: destruct (Z.eqb_spec (strcmp l (label r)) 0) as [Hs|Hs]; cbn [negb].
  all: try (split; [intros _|reflexivity];
            split; [congruence|]; split; [auto|];
            right; exists l; split; [reflexivity|];
            apply strcmp_zero in Hs; congruence).
  all: split; [discriminate|];
       intros (_ & _ & [H|(l' & H & Hl)]); [discriminate|];
       injection H as <-; exfalso; apply Hs, strcmp_zero; congruence.
Qed.

(** ** The label of a loaded record *)

(** C5, as amended: the label of the record built from a descriptor is the
    16-byte label field cut at its first zero byte, in a buffer of 17 bytes
    whose last byte is zero; a field without a zero byte gives a label of all
    its 16 bytes, and a field of 15 characters followed by a zero byte gives
    exactly those 15 characters. *)
Theorem loaded_label (d : esp_partition_info_t) :
  length (info_label d) = 16%nat ->
  let lbl := label (info (new_item d)) in
  length lbl = 17%nat
  /\ nth 16 lbl Byte.x01 = Byte.x00
  /\ cstr lbl = cstr (info_label d)
  /\ (length (cstr lbl) <= 16)%nat
  /\ (Forall (fun c => is_nul c = false) (info_label d) ->
      cstr lbl = info_label d /\ length (cstr lbl) = 16%nat)
  /\ (forall chars rest,
        info_label d = chars ++ Byte.x00 :: rest ->
        Forall (fun c => is_nul c = false) chars ->
        cstr lbl = chars).
Proof.
  intros Hlen lbl. subst lbl. cbn [new_item info label].
  assert (Hc : cstr (strncpy (info_label d) sizeof_info_label ++ [Byte.x00])
               = cstr (info_label d)).
  { rewrite cstr_strncpy. apply firstn_all2.
    pose proof (cstr_length (info_label d)). unfold sizeof_info_label. lia. }
  split.
  { rewrite length_app, strncpy_length. reflexivity. }
  split.
  { rewrite app_nth2; rewrite strncpy_length; [reflexivity|].
    unfold sizeof_info_label. lia. }
  split; [exact Hc|].
  split.
  { rewrite Hc. pose proof (cstr_length (info_label d)). lia. }
  split.
  - intros Hno. rewrite Hc, (cstr_no_nul _ Hno). split; [reflexivity|lia].
  - intros chars rest Heq Hno. rewrite Hc, Heq. apply cstr_app_nul, Hno.
Qed.

Lemma loaded_label_witness :
  cstr (label (info (new_item d_nvs))) = lbl_nvs
  /\ cstr (label (info (new_item d_full))) = lbl_15 ++ [Byte.xff].
Proof.
  assert (H1 : length (info_label d_nvs) = 16%nat) by reflexivity.
  assert (H2 : length (info_label d_full) = 16%nat) by reflexivity.
  destruct (loaded_label d_nvs H1) as (_ & _ & _ & _ & _ & Hz).
  destruct (loaded_label d_full H2) as (_ & _ & _ & _ & Hfull & _).
  split.
  - apply (Hz lbl_nvs (repeat Byte.x00 12)); [reflexivity|].
    repeat constructor.
  - apply Hfull. repeat constructor.
Defined.

(** C5 as stated fails: a label field of 15 characters and a last byte that
    is not a terminator loads as a label of 16 bytes, not as the 15
    characters. *)
Lemma loaded_label_15_counterexample :
  length (info_label d_full) = 16%nat
  /\ Forall (fun c => is_nul c = false) (info_label d_full)
  /\ firstn 15 (info_label d_full) = lbl_15
  /\ cstr (label (info (new_item d_full))) <> lbl_15
  /\ ~ (length (cstr (label (info (new_item d_full)))) <= 15)%nat.
Proof.
  split; [reflexivity|].
  split; [repeat constructor|].
  split; [reflexivity|].
  split; [discriminate|].
  cbn. lia.
Qed.

(** ** The loader *)

Section LoaderProperties.

Variable ESP_PARTITION_MAGIC : Z.
Variable SPI_FLASH_SEC_SIZE : Z.

Local Abbreviation nslots := (slot_count SPI_FLASH_SEC_SIZE).
Local Abbreviation loop := (load_loop ESP_PARTITION_MAGIC).
Local Abbreviation valid := (valid_slots ESP_PARTITION_MAGIC).
Local Abbreviation load :=
  (load_partitions ESP_PARTITION_MAGIC SPI_FLASH_SEC_SIZE).

(** The items of the descriptors [it], ..., [it + k - 1], in that order. *)
Local Abbreviation items_of table it k :=
  (map (fun i => new_item (table i)) (seq it k)).

Lemma valid_slots_le (table : nat -> esp_partition_info_t) (it n : nat) :
  (valid table it n <= n)%nat.
Proof.
  revert it. induction n as [|n IH]; intros it; cbn; [lia|].
  destruct (magic (table it) =? ESP_PARTITION_MAGIC); [|lia].
  specialize (IH (S it)). lia.
Qed.

Lemma valid_slots_valid (table : nat -> esp_partition_info_t) (it n i : nat) :
  (i < valid table it n)%nat ->
  magic (table (it + i)%nat) = ESP_PARTITION_MAGIC.
Proof.
  revert it i. induction n as [|n IH]; intros it i; cbn; [lia|].
  destruct (Z.eqb_spec (magic (table it)) ESP_PARTITION_MAGIC) as [He|Hne];
    [|lia].
  intros Hi. destruct i as [|i].
  - rewrite Nat.add_0_r. exact He.
  - replace (it + S i)%nat with (S it + i)%nat by lia. apply IH. lia.
Qed.

Lemma valid_slots_stop (table : nat -> esp_partition_info_t) (it n : nat) :
  (valid table it n < n)%nat ->
  magic (table (it + valid table it n)%nat) <> ESP_PARTITION_MAGIC.
Proof.
  revert it. induction n as [|n IH]; intros it; cbn; [lia|].
  destruct (Z.eqb_spec (magic (table it)) ESP_PARTITION_MAGIC) as [He|Hne].
  - intros Hlt.
    replace (it + S (valid table (S it) n))%nat
      with (S it + valid table (S it) n)%nat by lia.
    apply IH. lia.
  - intros _. rewrite Nat.add_0_r. exact Hne.
Qed.

(** The scan looks at the descriptors up to the first bad magic only. *)
Lemma valid_slots_ext (table table' : nat -> esp_partition_info_t)
  (it n : nat) :
  (forall i, (i <= valid table it n)%nat -> (i < n)%nat ->
             table' (it + i)%nat = table (it + i)%nat) ->
  valid table' it n = valid table it n.
Proof.
  revert it. induction n as [|n IH]; intros it Hext; cbn; [reflexivity|].
  assert (H0 : table' it = table it).
  { specialize (Hext 0%nat). rewrite Nat.add_0_r in Hext.
    apply Hext; lia. }
  rewrite H0.
  destruct (Z.eqb_spec (magic (table it)) ESP_PARTITION_MAGIC) as [He|Hne];
    [|reflexivity].
  f_equal. apply IH. intros i Hi Hn.
  specialize (Hext (S i)).
  replace (it + S i)%nat with (S it + i)%nat in Hext by lia.
  apply Hext; [|lia].
  cbn. destruct (Z.eqb_spec (magic (table it)) ESP_PARTITION_MAGIC);
    [lia | contradiction].
Qed.

(** A table of [k] good descriptors followed by a bad one. *)
Lemma valid_slots_exact (table : nat -> esp_partition_info_t) (it n k : nat) :
  (k < n)%nat ->
  (forall i, (i < k)%nat -> magic (table (it + i)%nat) = ESP_PARTITION_MAGIC) ->
  magic (table (it + k)%nat) <> ESP_PARTITION_MAGIC ->
  valid table it n = k.
Proof.
  revert it k. induction n as [|n IH]; intros it k Hk Hgood Hbad; [lia|].
  cbn. destruct k as [|k].
  - rewrite Nat.add_0_r in Hbad.
    destruct (Z.eqb_spec (magic (table it)) ESP_PARTITION_MAGIC);
      [contradiction | reflexivity].
  - pose proof (Hgood 0%nat ltac:(lia)) as H0. rewrite Nat.add_0_r in H0.
    destruct (Z.eqb_spec (magic (table it)) ESP_PARTITION_MAGIC);
      [|contradiction].
    f_equal. apply IH; [lia| |].
    + intros i Hi. replace (S it + i)%nat with (it + S i)%nat by lia.
      apply Hgood. lia.
    + replace (S it + k)%nat with (it + S k)%nat by lia. exact Hbad.
Qed.

(** The list the loop leaves: [last] stays NULL, so that every item goes to
    the head of the list. *)
Lemma load_loop_rev (table : nat -> esp_partition_info_t) (it n : nat)
  (lst : list partition_list_item_t) :
  loop table it n NULL lst
  = rev (items_of table it (valid table it n)) ++ lst.
Proof.
  revert it lst. induction n as [|n IH]; intros it lst; cbn; [reflexivity|].
  destruct (Z.eqb_spec (magic (table it)) ESP_PARTITION_MAGIC) as [He|Hne];
    cbn; [|reflexivity].
  rewrite IH. unfold SLIST_INSERT_HEAD.
  rewrite <- app_assoc. reflexivity.
Qed.

Lemma items_of_ext (table table' : nat -> esp_partition_info_t) (it k : nat) :
  (forall i, (i < k)%nat -> table' (it + i)%nat = table (it + i)%nat) ->
  items_of table' it k = items_of table it k.
Proof.
  revert it. induction k as [|k IH]; intros it Hext; cbn; [reflexivity|].
  f_equal.
  - specialize (Hext 0%nat). rewrite Nat.add_0_r in Hext.
    rewrite Hext by lia. reflexivity.
  - apply IH. intros i Hi.
    replace (S it + i)%nat with (it + S i)%nat by lia. apply Hext. lia.
Qed.

Lemma load_partitions_ok (mm : mmap_result) (st : state) :
  mmap_err mm = ESP_OK ->
  load mm st
  = Some (ESP_OK,
          set_list (loop (mmap_table mm) 0 nslots NULL
                      (s_partition_list st)) (count_load st)).
Proof.
  intros Hok. unfold load_partitions, bind, modify, gets, ret.
  rewrite Hok. cbn. reflexivity.
Qed.

Lemma load_partitions_fail (mm : mmap_result) (st : state) :
  mmap_err mm <> ESP_OK ->
  load mm st = Some (mmap_err mm, count_load st).
Proof.
  intros Hne. unfold load_partitions, bind, modify, ret.
  destruct (Z.eqb_spec (mmap_err mm) ESP_OK); [contradiction|].
  reflexivity.
Qed.

(** C3: the loader examines the descriptors in sequence from the first one of
    the table, at most SPI_FLASH_SEC_SIZE / sizeof(esp_partition_info_t) of
    them, and stops at the first whose magic is not ESP_PARTITION_MAGIC: the
    list gains one item for each of the [k] descriptors before that point and
    nothing else, whatever the descriptors after it hold. *)
Theorem load_partitions_scan (mm : mmap_result) (st : state) :
  mmap_err mm = ESP_OK ->
  exists (k : nat) (st' : state),
    (k <= nslots)%nat
    /\ (forall i, (i < k)%nat -> magic (mmap_table mm i) = ESP_PARTITION_MAGIC)
    /\ ((k < nslots)%nat ->
        magic (mmap_table mm k) <> ESP_PARTITION_MAGIC)
    /\ load mm st = Some (ESP_OK, st')
    /\ Permutation (s_partition_list st')
         (items_of (mmap_table mm) 0 k ++ s_partition_list st)
    /\ length (s_partition_list st')
       = (k + length (s_partition_list st))%nat
    /\ (forall mm',
          mmap_err mm' = ESP_OK ->
          (forall i, (i <= k)%nat -> (i < nslots)%nat ->
                     mmap_table mm' i = mmap_table mm i) ->
          load mm' st = load mm st).
Proof.
  intros Hok.
  set (k := valid (mmap_table mm) 0 nslots).
  exists k, (set_list (loop (mmap_table mm) 0 nslots NULL
                         (s_partition_list st)) (count_load st)).
  split; [apply valid_slots_le|].
  split; [intros i Hi; apply (valid_slots_valid (mmap_table mm) 0 _ i Hi)|].
  split; [intros Hlt; apply (valid_slots_stop (mmap_table mm) 0 _ Hlt)|].
  split; [apply load_partitions_ok, Hok|].
  split.
  { cbn [set_list s_partition_list count_load]. rewrite load_loop_rev.
    apply Permutation_app_tail. symmetry. apply Permutation_rev. }
  split.
  { cbn [set_list s_partition_list count_load]. rewrite load_loop_rev.
    rewrite length_app, length_rev, length_map, length_seq. reflexivity. }
  intros mm' Hok' Hext.
  rewrite !load_partitions_ok by assumption.
  rewrite !load_loop_rev.
  assert (Hk : valid (mmap_table mm') 0 nslots = k).
  { apply valid_slots_ext. intros i Hi Hn. cbn. apply Hext; assumption. }
  rewrite Hk.
  rewrite (items_of_ext (mmap_table mm) (mmap_table mm') 0 k);
    [reflexivity|].
  intros i Hi. cbn. apply Hext; [lia|].
  pose proof (valid_slots_le (mmap_table mm) 0 nslots). fold k in H. lia.
Qed.

End LoaderProperties.

(** ** The heap of iterators *)

Lemma set_heap_set_heap (h1 h2 : gmap positive esp_partition_iterator_opaque_t)
  (st : state) :
  set_heap h2 (set_heap h1 st) = set_heap h2 st.
Proof. reflexivity. Qed.

Lemma set_heap_id (st : state) : set_heap (heap st) st = st.
Proof. destruct st; reflexivity. Qed.

Lemma fresh_heap (h : gmap positive esp_partition_iterator_opaque_t) :
  h !! fresh (dom h) = None.
Proof. apply not_elem_of_dom, is_fresh. Qed.

(** ** The loop of esp_partition_next *)

Section ScanProperties.

Variable t : Z.
Variable lbl : option (list Byte.byte).

(** The items at which the loop stops. *)
Local Abbreviation stops := (fun i => negb (continues t lbl (info i))).

Lemma scan_nil (rem : list partition_list_item_t) :
  scan t lbl rem = [] -> List.filter stops rem = [].
Proof.
  induction rem as [|x r IH]; cbn; [reflexivity|].
  destruct (continues t lbl (info x)); cbn; [exact IH | discriminate].
Qed.

Lemma scan_cons (rem r : list partition_list_item_t)
  (x : partition_list_item_t) :
  scan t lbl rem = x :: r ->
  List.filter stops rem = x :: List.filter stops r
  /\ (length r < length rem)%nat
  /\ continues t lbl (info x) = false.
Proof.
  induction rem as [|y r' IH]; cbn; [discriminate|].
  destruct (continues t lbl (info y)) eqn:Hy; cbn.
  - intros H. destruct (IH H) as (Hf & Hl & Hc).
    repeat split; [exact Hf|lia|exact Hc].
  - intros H. injection H as <- <-. repeat split; [lia|exact Hy].
Qed.

(** The item the loop stops at is the first one the matcher accepts. *)
Lemma scan_find (rem : list partition_list_item_t) :
  List.find (fun r => negb (continues t lbl r)) (map info rem)
  = match scan t lbl rem with
    | [] => None
    | x :: _ => Some (info x)
    end.
Proof.
  induction rem as [|y r IH]; cbn; [reflexivity|].
  destruct (continues t lbl (info y)); cbn; [exact IH | reflexivity].
Qed.

(** One call of esp_partition_next on a live iterator. *)
Lemma next_live (l : positive) (v : esp_partition_iterator_opaque_t)
  (st : state) :
  heap st !! l = Some v ->
  esp_partition_next (Some l) st
  = match next_item v with
    | [] => Some (NULL, st)
    | _ :: _ =>
        match scan (it_type v) (it_label v) (next_item v) with
        | [] => Some (NULL, set_heap (delete l (heap st)) st)
        | item :: rest =>
            Some (Some l,
                  set_heap (<[l := mk_iterator (it_type v) (it_label v) rest
                                      (Some (info item))]> (heap st)) st)
        end
    end.
Proof.
  intros Hl. unfold esp_partition_next, bind, deref. rewrite Hl.
  destruct (next_item v) as [|y r] eqn:Hn; cbn [SLIST_EMPTY]; [reflexivity|].
  unfold store. rewrite Hl. cbn [heap set_heap].
  destruct (scan (it_type v) (it_label v) (y :: r)) as [|item rest].
  - unfold esp_partition_iterator_release, free, ret. cbn [heap set_heap].
    rewrite lookup_insert_eq. cbn [heap set_heap].
    rewrite delete_insert_eq. reflexivity.
  - cbn [heap set_heap]. rewrite lookup_insert_eq. cbn [heap set_heap].
    rewrite insert_insert_eq. reflexivity.
Qed.

Lemma get_live (l : positive) (v : esp_partition_iterator_opaque_t)
  (st : state) :
  heap st !! l = Some v ->
  esp_partition_get (Some l) st = Some (it_info v, st).
Proof.
  intros Hl. unfold esp_partition_get, bind, deref, ret. rewrite Hl.
  reflexivity.
Qed.

Lemma iterate_S (n : nat) (it : esp_partition_iterator_t) :
  iterate (S n) it
  = (do it' <- esp_partition_next it;
     match it' with
     | None => ret [None]
     | Some _ =>
         do p <- esp_partition_get it';
         do rest <- iterate n it';
         ret (p :: rest)
     end).
Proof. reflexivity. Qed.

(** Repeated calls of esp_partition_next yield the remaining items the
    matcher accepts, in the order of the list, then NULL. *)
Lemma iterate_yields (n : nat) :
  forall (rem : list partition_list_item_t) (l : positive)
         (inf : option esp_partition_t) (st : state),
    (length (List.filter stops rem) <= n)%nat ->
    heap st !! l = Some (mk_iterator t lbl rem inf) ->
    exists st',
      iterate (S n) (Some l) st
      = Some (map (fun i => Some (info i)) (List.filter stops rem) ++ [None],
              st')
      /\ s_partition_list st' = s_partition_list st
      /\ load_count st' = load_count st.
Proof.
  induction n as [|n IH]; intros rem l inf st Hn Hl.
  - rewrite iterate_S. unfold bind. rewrite (next_live l _ st Hl).
    cbn [next_item it_type it_label].
    destruct rem as [|y r].
    { exists st. cbn. auto. }
    destruct (scan t lbl (y :: r)) as [|item rest] eqn:Hs.
    + rewrite (scan_nil _ Hs). eexists. cbn. eauto.
    + destruct (scan_cons _ _ _ Hs) as (Hf & _ & _). rewrite Hf in Hn.
      cbn in Hn. lia.
  - rewrite iterate_S. unfold bind at 1. rewrite (next_live l _ st Hl).
    cbn [next_item it_type it_label].
    destruct rem as [|y r].
    { exists st. cbn. auto. }
    destruct (scan t lbl (y :: r)) as [|item rest] eqn:Hs.
    + rewrite (scan_nil _ Hs). eexists. cbn. eauto.
    + destruct (scan_cons _ _ _ Hs) as (Hf & _ & _). rewrite Hf in *.
      cbn [length] in Hn.
      set (st1 := set_heap _ st).
      assert (Hl1 : heap st1 !! l
                    = Some (mk_iterator t lbl rest (Some (info item)))).
      { subst st1. cbn [heap set_heap]. apply lookup_insert_eq. }
      unfold bind at 1. rewrite (get_live l _ st1 Hl1). cbn [it_info].
      destruct (IH rest l (Some (info item)) st1 ltac:(lia) Hl1)
        as (st' & He & Hlist & Hcount).
      unfold bind at 1. rewrite He.
      exists st'. split; [reflexivity|]. split; assumption.
Qed.

End ScanProperties.

(** ** Operations that do not touch the list *)

Create HintDb preserves.

Lemma preserves_ret {A : Type} (a : A) : preserves (ret a).
Proof. intros st b st' H. injection H as _ <-. auto. Qed.

Lemma preserves_bind {A B : Type} (m : M A) (k : A -> M B) :
  preserves m -> (forall a, preserves (k a)) -> preserves (bind m k).
Proof.
  intros Hm Hk st b st' H. unfold bind in H.
  destruct (m st) as [[a st1]|] eqn:Hm1; [|discriminate].
  destruct (Hm _ _ _ Hm1) as (H1 & H2).
  destruct (Hk a _ _ _ H) as (H3 & H4).
  split; congruence.
Qed.

Lemma preserves_gets {A : Type} (f : state -> A) : preserves (gets f).
Proof. intros st b st' H. injection H as _ <-. auto. Qed.

Lemma preserves_malloc (v : esp_partition_iterator_opaque_t) :
  preserves (malloc v).
Proof. intros st b st' H. injection H as _ <-. auto. Qed.

Lemma preserves_free (p : esp_partition_iterator_t) : preserves (free p).
Proof.
  intros st b st' H. destruct p as [l|]; cbn in H.
  - destruct (heap st !! l); [|discriminate]. injection H as _ <-. auto.
  - injection H as _ <-. auto.
Qed.

Lemma preserves_deref (l : positive) : preserves (deref l).
Proof.
  intros st b st' H. unfold deref in H.
  destruct (heap st !! l); [|discriminate]. injection H as _ <-. auto.
Qed.

Lemma preserves_store (l : positive) (v : esp_partition_iterator_opaque_t) :
  preserves (store l v).
Proof.
  intros st b st' H. unfold store in H.
  destruct (heap st !! l); [|discriminate]. injection H as _ <-. auto.
Qed.

Lemma preserves_undefined {A : Type} : preserves (@undefined A).
Proof. intros st b st' H. discriminate. Qed.

#[local] Hint Resolve preserves_ret preserves_gets preserves_malloc
  preserves_free preserves_deref preserves_store preserves_undefined
  : preserves.

Ltac preserves_tac :=
  repeat first
    [ apply preserves_bind; [|intros ?]
    | match goal with
      | |- preserves (match ?x with _ => _ end) => destruct x
      | |- preserves (if ?x then _ else _) => destruct x
      end
    | solve [auto with preserves] ].

Lemma preserves_release (it : esp_partition_iterator_t) :
  preserves (esp_partition_iterator_release it).
Proof. unfold esp_partition_iterator_release. preserves_tac. Qed.

Lemma preserves_get (it : esp_partition_iterator_t) :
  preserves (esp_partition_get it).
Proof. unfold esp_partition_get. preserves_tac. Qed.

Lemma preserves_next (it : esp_partition_iterator_t) :
  preserves (esp_partition_next it).
Proof.
  unfold esp_partition_next, esp_partition_iterator_release. preserves_tac.
Qed.

Lemma preserves_create (t : Z) (lbl : option (list Byte.byte)) :
  preserves (iterator_create t lbl).
Proof. unfold iterator_create. preserves_tac. Qed.

#[local] Hint Resolve preserves_release preserves_get preserves_next
  preserves_create : preserves.

(** ** esp_partition_find and its callers *)

Lemma find_ext {A : Type} (f g : A -> bool) (l : list A) :
  (forall x, f x = g x) -> List.find f l = List.find g l.
Proof.
  intros H. induction l as [|x r IH]; cbn; [reflexivity|].
  rewrite H, IH. reflexivity.
Qed.

(** iterator_create followed by esp_partition_next, as esp_partition_find
    runs them. On an empty list the iterator is not released. *)
Lemma create_next (t : Z) (lbl : option (list Byte.byte)) (st : state) :
  (do it <- iterator_create t lbl; esp_partition_next it) st
  = let l := fresh (dom (heap st)) in
    match s_partition_list st with
    | [] =>
        Some (NULL,
              set_heap (<[l := mk_iterator t lbl [] NULL]> (heap st)) st)
    | _ :: _ =>
        match scan t lbl (s_partition_list st) with
        | [] => Some (NULL, st)
        | item :: rest =>
            Some (Some l,
                  set_heap (<[l := mk_iterator t lbl rest (Some (info item))]>
                              (heap st)) st)
        end
    end.
Proof.
  unfold iterator_create, bind at 1 2 3, gets, malloc, ret. cbn zeta.
  set (l := fresh (dom (heap st))).
  set (v0 := mk_iterator t lbl (SLIST_FIRST (s_partition_list st)) NULL).
  assert (Hl : heap (set_heap (<[l := v0]> (heap st)) st) !! l = Some v0).
  { cbn [heap set_heap]. apply lookup_insert_eq. }
  rewrite (next_live l v0 _ Hl). subst v0.
  cbn [next_item it_type it_label heap set_heap]. unfold SLIST_FIRST.
  destruct (s_partition_list st) as [|y r]; [reflexivity|].
  destruct (scan t lbl (y :: r)) as [|item rest].
  - rewrite set_heap_set_heap, delete_insert_id by apply fresh_heap.
    rewrite set_heap_id. reflexivity.
  - rewrite set_heap_set_heap, insert_insert_eq. reflexivity.
Qed.

Section QueryProperties.

Variable ESP_PARTITION_MAGIC : Z.
Variable SPI_FLASH_SEC_SIZE : Z.

Local Abbreviation nslots := (slot_count SPI_FLASH_SEC_SIZE).
Local Abbreviation loop := (load_loop ESP_PARTITION_MAGIC).
Local Abbreviation load :=
  (load_partitions ESP_PARTITION_MAGIC SPI_FLASH_SEC_SIZE).
Local Abbreviation loaded_state :=
  (loaded ESP_PARTITION_MAGIC SPI_FLASH_SEC_SIZE).
Local Abbreviation find :=
  (esp_partition_find ESP_PARTITION_MAGIC SPI_FLASH_SEC_SIZE).
Local Abbreviation find_first :=
  (esp_partition_find_first ESP_PARTITION_MAGIC SPI_FLASH_SEC_SIZE).
Local Abbreviation enum :=
  (enumerate ESP_PARTITION_MAGIC SPI_FLASH_SEC_SIZE).
Local Abbreviation run :=
  (run_calls ESP_PARTITION_MAGIC SPI_FLASH_SEC_SIZE).

(** esp_partition_find: the guarded load, then the creation of the iterator
    and its first advance. *)
Lemma find_eq (mm : mmap_result) (t : Z) (lbl : option (list Byte.byte))
  (st : state) :
  find mm t lbl st
  = if SLIST_EMPTY (s_partition_list st) && negb (mmap_err mm =? ESP_OK)
    then Some (NULL, count_load st)
    else (do it <- iterator_create t lbl; esp_partition_next it)
           (loaded_state mm st).
Proof.
  unfold esp_partition_find, loaded. unfold bind at 1 2. unfold gets at 1.
  destruct (s_partition_list st) as [|y r] eqn:Hlist; cbn [SLIST_EMPTY andb].
  - unfold bind at 1. unfold gets at 1. rewrite Hlist. cbn [SLIST_EMPTY].
    destruct (Z.eqb_spec (mmap_err mm) ESP_OK) as [Hok|Hne]; cbn [negb].
    + rewrite (load_partitions_ok _ _ _ _ Hok). rewrite Hlist.
      reflexivity.
    + rewrite (load_partitions_fail _ _ _ _ Hne).
      destruct (Z.eqb_spec (mmap_err mm) ESP_OK); [contradiction|].
      reflexivity.
  - reflexivity.
Qed.

(** With a list that is not empty, esp_partition_find takes the path that
    neither locks nor loads. *)
Lemma find_fast (mm : mmap_result) (t : Z) (lbl : option (list Byte.byte))
  (st : state) :
  s_partition_list st <> [] ->
  find mm t lbl st
  = (do it <- iterator_create t lbl; esp_partition_next it) st.
Proof.
  intros Hne. rewrite find_eq. unfold loaded.
  destruct (s_partition_list st); [contradiction|]. reflexivity.
Qed.

(** The outcome of esp_partition_find in full. *)
Lemma find_result (mm : mmap_result) (t : Z) (lbl : option (list Byte.byte))
  (st : state) :
  let st1 := loaded_state mm st in
  let l := fresh (dom (heap st1)) in
  find mm t lbl st
  = match s_partition_list st1 with
    | [] =>
        if SLIST_EMPTY (s_partition_list st) && negb (mmap_err mm =? ESP_OK)
        then Some (NULL, st1)
        else Some (NULL,
                   set_heap (<[l := mk_iterator t lbl [] NULL]> (heap st1))
                     st1)
    | _ :: _ =>
        match scan t lbl (s_partition_list st1) with
        | [] => Some (NULL, st1)
        | item :: rest =>
            Some (Some l,
                  set_heap (<[l := mk_iterator t lbl rest (Some (info item))]>
                              (heap st1)) st1)
        end
    end.
Proof.
  intros st1 l. rewrite find_eq.
  destruct (SLIST_EMPTY (s_partition_list st) && negb (mmap_err mm =? ESP_OK))
    eqn:Hfail.
  - apply andb_prop in Hfail as [He Hn].
    subst st1. unfold loaded.
    destruct (s_partition_list st) eqn:Hlist; [|discriminate].
    rewrite Hn. cbn [SLIST_EMPTY].
    change (s_partition_list (count_load st)) with (s_partition_list st).
    rewrite Hlist. reflexivity.
  - rewrite create_next. reflexivity.
Qed.

Lemma find_total (mm : mmap_result) (t : Z) (lbl : option (list Byte.byte))
  (st : state) :
  exists it st', find mm t lbl st = Some (it, st').
Proof.
  rewrite find_result. cbn zeta.
  destruct (s_partition_list (loaded_state mm st)).
  - destruct (_ && _); eauto.
  - destruct (scan _ _ _); eauto.
Qed.

(** esp_partition_find_first in full: the first record of the list that the
    matcher accepts; the iterator it used is released, except on an empty
    list. *)
Lemma find_first_result (mm : mmap_result) (t : Z)
  (lbl : option (list Byte.byte)) (st : state) :
  let st1 := loaded_state mm st in
  let l := fresh (dom (heap st1)) in
  find_first mm t lbl st
  = Some (List.find (fun r => negb (continues t lbl r))
            (map info (s_partition_list st1)),
          match s_partition_list st1 with
          | [] =>
              if SLIST_EMPTY (s_partition_list st)
                 && negb (mmap_err mm =? ESP_OK)
              then st1
              else set_heap (<[l := mk_iterator t lbl [] NULL]> (heap st1))
                     st1
          | _ :: _ => st1
          end).
Proof.
  intros st1 l. unfold esp_partition_find_first. unfold bind at 1.
  rewrite find_result. fold st1. fold l. rewrite scan_find.
  destruct (s_partition_list st1) as [|y r] eqn:Hlist.
  - cbn [scan]. destruct (_ && _); reflexivity.
  - destruct (scan t lbl (y :: r)) as [|item rest]; [reflexivity|].
    set (v := mk_iterator t lbl rest (Some (info item))).
    set (st2 := set_heap (<[l := v]> (heap st1)) st1).
    assert (Hl : heap st2 !! l = Some v).
    { subst st2. cbn [heap set_heap]. apply lookup_insert_eq. }
    unfold bind at 1. rewrite (get_live l v st2 Hl).
    unfold bind, esp_partition_iterator_release, free, ret. rewrite Hl.
    subst st2 v. cbn [heap set_heap it_info].
    rewrite delete_insert_id by apply fresh_heap.
    rewrite set_heap_set_heap, set_heap_id. reflexivity.
Qed.

(** find and then next, as many times as there are accepted records and once
    more: the accepted records in the order of the list, then NULL. *)
Lemma enumerate_yields (mm : mmap_result) (t : Z)
  (lbl : option (list Byte.byte)) (st : state) (n : nat) :
  let accepted :=
    List.filter (fun i => negb (continues t lbl (info i)))
      (s_partition_list (loaded_state mm st)) in
  (length accepted <= n)%nat ->
  exists st',
    enum mm t lbl (S n) st
    = Some (map (fun i => Some (info i)) accepted ++ [None], st').
Proof.
  intros accepted Hn. unfold enumerate. unfold bind at 1.
  rewrite find_result. cbn zeta. subst accepted.
  set (st1 := loaded_state mm st) in *.
  destruct (s_partition_list st1) as [|y r] eqn:Hlist.
  - destruct (_ && _); eexists; reflexivity.
  - destruct (scan t lbl (y :: r)) as [|item rest] eqn:Hs.
    + rewrite (scan_nil _ _ _ Hs). eexists. reflexivity.
    + destruct (scan_cons _ _ _ _ _ Hs) as (Hf & _ & _). rewrite Hf in *.
      cbn [length] in Hn.
      set (l := fresh (dom (heap st1))).
      set (v := mk_iterator t lbl rest (Some (info item))).
      set (st2 := set_heap (<[l := v]> (heap st1)) st1).
      assert (Hl : heap st2 !! l = Some v).
      { subst st2. cbn [heap set_heap]. apply lookup_insert_eq. }
      unfold bind at 1. rewrite (get_live l v st2 Hl).
      destruct n as [|n]; [lia|].
      destruct (iterate_yields t lbl n rest l (Some (info item)) st2
                  ltac:(lia) Hl) as (st' & He & _).
      unfold bind at 1. rewrite He. exists st'. reflexivity.
Qed.

Lemma filter_map_info (g : esp_partition_t -> bool)
  (l : list partition_list_item_t) :
  map info (List.filter (fun i => g (info i)) l) = List.filter g (map info l).
Proof.
  induction l as [|x r IH]; cbn; [reflexivity|].
  destruct (g (info x)); cbn; rewrite IH; reflexivity.
Qed.

Lemma filter_all {A : Type} (g : A -> bool) (l : list A) :
  (forall x, In x l -> g x = true) -> List.filter g l = l.
Proof.
  induction l as [|x r IH]; intros H; cbn; [reflexivity|].
  rewrite (H x (or_introl eq_refl)). f_equal. apply IH.
  intros y Hy. apply H. right. exact Hy.
Qed.

Lemma filter_ext_bool {A : Type} (f g : A -> bool) (l : list A) :
  (forall x, f x = g x) -> List.filter f l = List.filter g l.
Proof.
  intros H. induction l as [|x r IH]; cbn; [reflexivity|].
  rewrite H, IH. reflexivity.
Qed.

(** With the wildcard minor type and no label only the major type counts. *)
Lemma continues_wildcard (t : Z) (r : esp_partition_t) :
  get_minor_type t = 255 ->
  negb (continues t None r) = (get_major_type (type r) =? get_major_type t).
Proof.
  intros Hw. unfold continues. rewrite Hw.
  rewrite (Z.eqb_sym (get_major_type (type r))).
  destruct (get_major_type t =? get_major_type (type r)); reflexivity.
Qed.

(** The list after the load of a table of [N] good descriptors and a bad
    one: the items of the descriptors, the last one first. *)
Lemma loaded_list (mm : mmap_result) (st : state) (N : nat) :
  s_partition_list st = [] ->
  mmap_err mm = ESP_OK ->
  (N < nslots)%nat ->
  (forall i, (i < N)%nat -> magic (mmap_table mm i) = ESP_PARTITION_MAGIC) ->
  magic (mmap_table mm N) <> ESP_PARTITION_MAGIC ->
  s_partition_list (loaded_state mm st)
  = rev (map (fun i => new_item (mmap_table mm i)) (seq 0 N)).
Proof.
  intros Hlist Hok HN Hgood Hbad. unfold loaded. rewrite Hlist.
  cbn [SLIST_EMPTY]. rewrite Hok.
  cbn [negb Z.eqb ESP_OK set_list s_partition_list].
  rewrite load_loop_rev, app_nil_r.
  rewrite (valid_slots_exact ESP_PARTITION_MAGIC (mmap_table mm) 0 nslots N);
    auto.
Qed.

(** C1, as amended: on a table of N good descriptors followed by one with a
    bad magic, find with a wildcard minor type and no label, then next,
    yield each loaded record of the requested major type once (all N records
    when all have that major type), and the call after the last record
    yields NULL. *)
Theorem enumerate_wildcard (mm : mmap_result) (st : state) (t : Z) (N : nat) :
  s_partition_list st = [] ->
  mmap_err mm = ESP_OK ->
  (N < nslots)%nat ->
  (forall i, (i < N)%nat -> magic (mmap_table mm i) = ESP_PARTITION_MAGIC) ->
  magic (mmap_table mm N) <> ESP_PARTITION_MAGIC ->
  get_minor_type t = 255 ->
  let records := map (fun i => info (new_item (mmap_table mm i))) (seq 0 N) in
  exists (ys : list esp_partition_t) (st' : state),
    enum mm t None (S (length ys)) st = Some (map Some ys ++ [None], st')
    /\ Permutation ys
         (List.filter
            (fun r => get_major_type (type r) =? get_major_type t) records)
    /\ ((forall r, In r records ->
                   get_major_type (type r) = get_major_type t) ->
        Permutation ys records /\ length ys = N).
Proof.
  intros Hlist Hok HN Hgood Hbad Hw records.
  set (g := fun r => get_major_type (type r) =? get_major_type t).
  set (accepted :=
         List.filter (fun i => negb (continues t None (info i)))
           (s_partition_list (loaded_state mm st))).
  destruct (enumerate_yields mm t None st (length accepted) (Nat.le_refl _))
    as (st' & He).
  fold accepted in He.
  assert (Hys : Permutation (map info accepted) (List.filter g records)).
  { subst accepted. rewrite (loaded_list mm st N) by assumption.
    rewrite (filter_ext_bool _ (fun i => g (info i)))
      by (intros x; apply continues_wildcard, Hw).
    rewrite filter_map_info, map_rev, List.filter_rev.
    rewrite map_map. fold records. symmetry. apply Permutation_rev. }
  exists (map info accepted), st'. split.
  { rewrite length_map, map_map. exact He. }
  split; [exact Hys|].
  intros Hall.
  rewrite (filter_all g records) in Hys.
  2:{ intros r Hr. subst g. cbn. apply Z.eqb_eq, Hall, Hr. }
  split; [exact Hys|].
  rewrite (Permutation_length Hys). subst records.
  rewrite length_map, length_seq. reflexivity.
Qed.

(** ** The load happens once *)

Lemma loaded_nonempty (mm : mmap_result) (st : state) :
  s_partition_list st <> [] -> loaded_state mm st = st.
Proof.
  intros Hne. unfold loaded.
  destruct (s_partition_list st); [contradiction|]. reflexivity.
Qed.

Lemma run_call_preserves (c : call) (st st1 : state) (u : unit) :
  s_partition_list st <> [] ->
  run_call ESP_PARTITION_MAGIC SPI_FLASH_SEC_SIZE c st = Some (u, st1) ->
  s_partition_list st1 = s_partition_list st
  /\ load_count st1 = load_count st.
Proof.
  intros Hne. destruct c as [mm t lbl|mm t lbl|it|it|it]; cbn [run_call].
  - unfold bind at 1. rewrite (find_fast mm t lbl st Hne).
    destruct ((do it <- iterator_create t lbl; esp_partition_next it) st)
      as [[it st2]|] eqn:Hf; [|discriminate].
    intros H. injection H as _ <-.
    revert Hf. apply (preserves_bind _ _ (preserves_create t lbl)).
    intros a. apply preserves_next.
  - unfold bind at 1. rewrite find_first_result. cbn zeta.
    rewrite (loaded_nonempty mm st Hne).
    destruct (s_partition_list st) as [|y r] eqn:Hlist; [contradiction|].
    intros H. injection H as _ <-. rewrite Hlist. split; reflexivity.
  - apply (preserves_bind _ _ (preserves_next it)).
    intros a. apply preserves_ret.
  - apply (preserves_bind _ _ (preserves_get it)).
    intros a. apply preserves_ret.
  - apply preserves_release.
Qed.

Lemma run_calls_preserves (cs : list call) :
  forall st st',
    s_partition_list st <> [] ->
    run cs st = Some (tt, st') ->
    load_count st' = load_count st
    /\ s_partition_list st' = s_partition_list st.
Proof.
  induction cs as [|c cs IH]; intros st st' Hne H.
  - injection H as <-. auto.
  - cbn [run_calls] in H. unfold bind at 1 in H.
    destruct (run_call _ _ c st) as [[u st1]|] eqn:Hc; [|discriminate].
    destruct (run_call_preserves c st st1 u Hne Hc) as (Hl & Hn).
    destruct (IH st1 st') as (Hn' & Hl'); [congruence|exact H|].
    split; congruence.
Qed.

Lemma run_queries_total (cs : list call) :
  forall st, Forall (is_query) cs -> exists st', run cs st = Some (tt, st').
Proof.
  induction cs as [|c cs IH]; intros st Hq.
  - exists st. reflexivity.
  - inversion Hq as [|c' cs' Hc Hcs]; subst.
    cbn [run_calls]. unfold bind at 1.
    destruct c as [mm t lbl|mm t lbl|it|it|it]; cbn in Hc; try contradiction;
      cbn [run_call].
    + destruct (find_total mm t lbl st) as (it & st1 & Hf).
      unfold bind at 1. rewrite Hf. cbn [ret]. apply IH, Hcs.
    + unfold bind at 1. rewrite find_first_result. cbn [ret].
      apply IH, Hcs.
Qed.

(** C4, as amended: once the list is not empty, esp_partition_find goes
    straight to the creation of its iterator, no call of the API runs the
    loader or changes the list, and queries keep returning. *)
Theorem loader_runs_once (st : state) :
  s_partition_list st <> [] ->
  (forall mm t lbl,
      find mm t lbl st
      = (do it <- iterator_create t lbl; esp_partition_next it) st)
  /\ (forall cs st',
        run cs st = Some (tt, st') ->
        load_count st' = load_count st
        /\ s_partition_list st' = s_partition_list st)
  /\ (forall cs, Forall (is_query) cs ->
                 exists st', run cs st = Some (tt, st')).
Proof.
  intros Hne. split; [|split].
  - intros mm t lbl. apply find_fast, Hne.
  - intros cs st'. apply run_calls_preserves, Hne.
  - intros cs. apply run_queries_total.
Qed.

(** ** Empty tables and failed mappings *)

Lemma valid_slots_first_bad (table : nat -> esp_partition_info_t) (n : nat) :
  magic (table 0%nat) <> ESP_PARTITION_MAGIC ->
  valid_slots ESP_PARTITION_MAGIC table 0 n = 0%nat.
Proof.
  intros Hbad. destruct n as [|n]; cbn; [reflexivity|].
  destruct (Z.eqb_spec (magic (table 0%nat)) ESP_PARTITION_MAGIC);
    [contradiction | reflexivity].
Qed.

Lemma set_list_same (st : state) (l : list partition_list_item_t) :
  s_partition_list st = l -> set_list l st = st.
Proof. intros <-. destruct st; reflexivity. Qed.

(** C6: when the mapping succeeds and the first descriptor has a bad magic,
    load_partitions returns ESP_OK and leaves the list empty, and
    esp_partition_find and esp_partition_find_first return NULL after that
    one load. *)
Theorem empty_table_find (mm : mmap_result) (st : state) (t : Z)
  (lbl : option (list Byte.byte)) :
  mmap_err mm = ESP_OK ->
  s_partition_list st = [] ->
  magic (mmap_table mm 0%nat) <> ESP_PARTITION_MAGIC ->
  load mm st = Some (ESP_OK, count_load st)
  /\ s_partition_list (count_load st) = []
  /\ exists st',
       find mm t lbl st = Some (NULL, st')
       /\ find_first mm t lbl st = Some (NULL, st')
       /\ s_partition_list st' = []
       /\ load_count st' = S (load_count st).
Proof.
  intros Hok Hlist Hbad.
  assert (Hloop : loop (mmap_table mm) 0 nslots NULL (s_partition_list st)
                  = []).
  { rewrite load_loop_rev, (valid_slots_first_bad _ _ Hbad), Hlist.
    reflexivity. }
  assert (Hst1 : loaded_state mm st = count_load st).
  { unfold loaded. rewrite Hlist. cbn [SLIST_EMPTY]. rewrite Hok.
    cbn [negb ESP_OK Z.eqb]. rewrite <- Hlist, Hloop.
    apply set_list_same. exact Hlist. }
  split.
  { rewrite (load_partitions_ok _ _ _ _ Hok), Hloop.
    rewrite set_list_same by exact Hlist. reflexivity. }
  split; [exact Hlist|].
  eexists. split; [|split; [|split]].
  - rewrite find_result. cbn zeta. rewrite Hst1.
    change (s_partition_list (count_load st)) with (s_partition_list st).
    rewrite Hlist, Hok. cbn [SLIST_EMPTY andb negb ESP_OK Z.eqb].
    reflexivity.
  - rewrite find_first_result. cbn zeta. rewrite Hst1.
    change (s_partition_list (count_load st)) with (s_partition_list st).
    rewrite Hlist, Hok. cbn [SLIST_EMPTY andb negb ESP_OK Z.eqb map List.find].
    reflexivity.
  - cbn. exact Hlist.
  - reflexivity.
Qed.

(** C7: when the mapping fails, load_partitions returns the error of
    spi_flash_mmap and builds nothing: the list stays empty and the heap
    untouched, esp_partition_find and esp_partition_find_first return NULL,
    and the next query, the list being still empty, runs the load again. *)
Theorem mmap_failure (mm : mmap_result) (st : state) (t : Z)
  (lbl : option (list Byte.byte)) :
  mmap_err mm <> ESP_OK ->
  s_partition_list st = [] ->
  load mm st = Some (mmap_err mm, count_load st)
  /\ find mm t lbl st = Some (NULL, count_load st)
  /\ find_first mm t lbl st = Some (NULL, count_load st)
  /\ s_partition_list (count_load st) = []
  /\ heap (count_load st) = heap st
  /\ (forall mm' t' lbl',
        mmap_err mm' = ESP_OK ->
        exists it st',
          find mm' t' lbl' (count_load st) = Some (it, st')
          /\ s_partition_list st' = loop (mmap_table mm') 0 nslots NULL []
          /\ load_count st' = S (S (load_count st))).
Proof.
  intros Hne Hlist.
  assert (Hneb : negb (mmap_err mm =? ESP_OK) = true).
  { destruct (Z.eqb_spec (mmap_err mm) ESP_OK); [contradiction|reflexivity]. }
  assert (Hst1 : loaded_state mm st = count_load st).
  { unfold loaded. rewrite Hlist. cbn [SLIST_EMPTY]. rewrite Hneb.
    reflexivity. }
  split; [apply load_partitions_fail, Hne|].
  split.
  { rewrite find_eq, Hlist, Hneb. reflexivity. }
  split.
  { rewrite find_first_result. cbn zeta. rewrite Hst1.
    change (s_partition_list (count_load st)) with (s_partition_list st).
    rewrite Hlist, Hneb. reflexivity. }
  split; [exact Hlist|].
  split; [reflexivity|].
  intros mm' t' lbl' Hok'.
  assert (Hst2 : loaded_state mm' (count_load st)
                 = set_list (loop (mmap_table mm') 0 nslots NULL [])
                     (count_load (count_load st))).
  { unfold loaded.
    change (s_partition_list (count_load st)) with (s_partition_list st).
    rewrite Hlist. cbn [SLIST_EMPTY]. rewrite Hok'. reflexivity. }
  pose proof (find_result mm' t' lbl' (count_load st)) as Hf.
  cbn zeta in Hf. rewrite Hst2 in Hf.
  cbn [s_partition_list set_list] in Hf.
  destruct (loop (mmap_table mm') 0 nslots NULL []) as [|y r] eqn:Hloop.
  - destruct (_ && _); eexists _, _; (split; [exact Hf|]);
      split; reflexivity || (cbn; auto).
  - destruct (scan t' lbl' (y :: r)); eexists _, _; (split; [exact Hf|]);
      split; reflexivity || (cbn; auto).
Qed.

(** ** esp_partition_find_first *)

(** C8: esp_partition_find_first returns what esp_partition_find followed by
    esp_partition_get and esp_partition_iterator_release gives: the first
    record of the list that the matcher of the specification accepts, NULL
    when there is none; the iterator of a find that found a record is no
    longer allocated on return. *)
Theorem find_first_refines (mm : mmap_result) (t : Z)
  (lbl : option (list Byte.byte)) (st : state) :
  exists (res : option esp_partition_t) (st' : state),
    find_first mm t lbl st = Some (res, st')
    /\ res = spec_findFirst (map info (s_partition_list st')) t lbl
    /\ s_partition_list st' = s_partition_list (loaded_state mm st)
    /\ (s_partition_list st' <> [] -> heap st' = heap st)
    /\ exists it st1,
         find mm t lbl st = Some (it, st1)
         /\ match it with
            | None => res = None /\ st' = st1
            | Some l =>
                exists v, heap st1 !! l = Some v
                          /\ res = it_info v
                          /\ st' = set_heap (delete l (heap st1)) st1
            end.
Proof.
  pose proof (find_first_result mm t lbl st) as Hff.
  pose proof (find_result mm t lbl st) as Hf.
  cbn zeta in Hff, Hf.
  assert (Hheap : heap (loaded_state mm st) = heap st).
  { unfold loaded. destruct (SLIST_EMPTY _); [|reflexivity].
    destruct (negb _); reflexivity. }
  rewrite (find_ext _ (spec_accepts (get_major_type t) (get_minor_type t) lbl))
    in Hff
    by (intros x; rewrite continues_spec_accepts; apply negb_involutive).
  set (st1 := loaded_state mm st) in *.
  destruct (s_partition_list st1) as [|y r] eqn:Hlist.
  - destruct (SLIST_EMPTY (s_partition_list st)
              && negb (mmap_err mm =? ESP_OK)).
    all: eexists _, _; (split; [exact Hff|]).
    all: cbn [s_partition_list set_heap]; rewrite Hlist.
    all: split; [reflexivity|].
    all: split; [reflexivity|].
    all: split; [intros H; contradiction|].
    all: eexists _, _; (split; [exact Hf|]); split; reflexivity.
  - eexists _, _. split; [exact Hff|].
    split; [rewrite Hlist; reflexivity|].
    split; [exact Hlist|].
    split; [intros _; exact Hheap|].
    pose proof (scan_find t lbl (y :: r)) as Hsf.
    rewrite (find_ext _ (spec_accepts (get_major_type t) (get_minor_type t)
                           lbl)) in Hsf
      by (intros x; rewrite continues_spec_accepts; apply negb_involutive).
    rewrite Hsf.
    destruct (scan t lbl (y :: r)) as [|item rest].
    + eexists _, _. split; [exact Hf|]. split; reflexivity.
    + eexists _, _. split; [exact Hf|].
      eexists. cbn [heap set_heap]. split; [apply lookup_insert_eq|].
      split; [reflexivity|].
      rewrite delete_insert_id by apply fresh_heap.
      rewrite set_heap_set_heap, set_heap_id. reflexivity.
Qed.

End QueryProperties.

(** ** esp_partition_iterator_release *)

(** C9, as amended: releasing NULL, which is what esp_partition_find and
    esp_partition_next return once the iteration has ended, changes nothing
    and has a result in every state. An iterator whose scan ends without a
    match is freed by esp_partition_next itself: releasing the value that
    call returned is safe, releasing the iterator once more is a double
    free. *)
Theorem release_null :
  (forall st, esp_partition_iterator_release NULL st = Some (tt, st))
  /\ (forall l v st,
        heap st !! l = Some v ->
        next_item v <> [] ->
        scan (it_type v) (it_label v) (next_item v) = [] ->
        esp_partition_next (Some l) st
        = Some (NULL, set_heap (delete l (heap st)) st)
        /\ (do r <- esp_partition_next (Some l);
            esp_partition_iterator_release r) st
           = Some (tt, set_heap (delete l (heap st)) st)
        /\ (exec esp_partition_next (Some l);
            esp_partition_iterator_release (Some l)) st = None).
Proof.
  split; [reflexivity|].
  intros l v st Hl Hne Hscan.
  assert (Hnext : esp_partition_next (Some l) st
                  = Some (NULL, set_heap (delete l (heap st)) st)).
  { rewrite (next_live l v st Hl), Hscan.
    destruct (next_item v); [contradiction|reflexivity]. }
  split; [exact Hnext|].
  split.
  - unfold bind. rewrite Hnext. reflexivity.
  - unfold bind. rewrite Hnext.
    unfold esp_partition_iterator_release, free. cbn [heap set_heap].
    rewrite lookup_delete_eq. reflexivity.
Qed.

(** * The properties on the sample tables *)

Lemma enumerate_wildcard_witness :
  exists ys st',
    enumerate sample_magic sample_sec_size (mmap_of [d_nvs; d_phy])
      ESP_PARTITION_DATA_ANY None (S (length ys)) initial_state
    = Some (map Some ys ++ [None], st')
    /\ length ys = 2%nat.
Proof.
  assert (HN : (2 < slot_count sample_sec_size)%nat) by (vm_compute; lia).
  assert (Hgood : forall i, (i < 2)%nat ->
                    magic (mmap_table (mmap_of [d_nvs; d_phy]) i)
                    = sample_magic).
  { intros [|[|i]] Hi; [reflexivity|reflexivity|lia]. }
  assert (Hbad : magic (mmap_table (mmap_of [d_nvs; d_phy]) 2) <> sample_magic)
    by (vm_compute; discriminate).
  destruct (enumerate_wildcard sample_magic sample_sec_size
              (mmap_of [d_nvs; d_phy]) initial_state ESP_PARTITION_DATA_ANY 2
              eq_refl eq_refl HN Hgood Hbad eq_refl)
    as (ys & st' & He & _ & Hall).
  exists ys, st'. split; [exact He|].
  apply Hall. intros r [<-|[<-|[]]]; reflexivity.
Defined.

(** The order in which the two data partitions come out: the one that is
    last on flash first. *)
Lemma enumerate_data_partitions :
  exists st',
    enumerate sample_magic sample_sec_size (mmap_of [d_nvs; d_phy])
      ESP_PARTITION_DATA_ANY None 3 initial_state
    = Some ([Some (info (new_item d_phy)); Some (info (new_item d_nvs)); None],
            st').
Proof. eexists. vm_compute. reflexivity. Qed.

Lemma continues_false_major (t : Z) (lbl : option (list Byte.byte))
  (r : esp_partition_t) :
  continues t lbl r = false -> get_major_type t = get_major_type (type r).
Proof.
  unfold continues.
  destruct (Z.eqb_spec (get_major_type t) (get_major_type (type r)));
    [auto | discriminate].
Qed.

(** C1 as stated fails: on a table of an application partition and a data
    partition, no requested type makes find and next yield both records. *)
Lemma enumerate_all_counterexample :
  ~ exists t ys st',
      enumerate sample_magic sample_sec_size (mmap_of [d_factory; d_nvs])
        t None 3 initial_state
      = Some (map Some ys ++ [None], st')
      /\ length ys = 2%nat.
Proof.
  intros (t & ys & st' & He & Hlen).
  assert (Hlist : s_partition_list
                    (loaded sample_magic sample_sec_size
                       (mmap_of [d_factory; d_nvs]) initial_state)
                  = [new_item d_nvs; new_item d_factory])
    by reflexivity.
  pose proof (enumerate_yields sample_magic sample_sec_size
                (mmap_of [d_factory; d_nvs]) t None initial_state 2) as Hy.
  cbn zeta in Hy. rewrite Hlist in Hy. cbn [List.filter] in Hy.
  destruct (continues t None (info (new_item d_nvs))) eqn:Hnvs;
    destruct (continues t None (info (new_item d_factory))) eqn:Hfac;
    cbn [negb] in Hy;
    (destruct Hy as (st2 & Hy); [cbn; lia|]);
    rewrite Hy in He; injection He as He _;
    apply (f_equal (@length _)) in He as Hl;
    rewrite length_app, length_map, Hlen in Hl; cbn in Hl; try lia.
  apply continues_false_major in Hnvs, Hfac.
  rewrite Hnvs in Hfac. vm_compute in Hfac. discriminate.
Qed.

Lemma load_partitions_scan_witness :
  exists k st',
    load_partitions sample_magic sample_sec_size
      (mmap_of [d_factory; d_nvs; d_phy]) initial_state = Some (ESP_OK, st')
    /\ length (s_partition_list st') = (k + 0)%nat
    /\ (k <= slot_count sample_sec_size)%nat.
Proof.
  destruct (load_partitions_scan sample_magic sample_sec_size
              (mmap_of [d_factory; d_nvs; d_phy]) initial_state eq_refl)
    as (k & st' & Hk & _ & _ & Hload & _ & Hlen & _).
  exists k, st'. split; [exact Hload|]. split; [exact Hlen | exact Hk].
Defined.

Lemma loader_runs_once_witness :
  s_partition_list sample_loaded <> []
  /\ forall cs st',
       run_calls sample_magic sample_sec_size cs sample_loaded
       = Some (tt, st') ->
       load_count st' = 1%nat.
Proof.
  assert (Hne : s_partition_list sample_loaded <> [])
    by (vm_compute; discriminate).
  split; [exact Hne|].
  intros cs st' Hrun.
  destruct (loader_runs_once sample_magic sample_sec_size sample_loaded Hne)
    as (_ & Hkeep & _).
  destruct (Hkeep cs st' Hrun) as (Hcount & _).
  rewrite Hcount. reflexivity.
Defined.

(** C4 as stated fails: after a load that succeeds with no record, the next
    query runs the loader again. *)
Lemma loader_reruns_counterexample :
  Forall mmap_ok
    [Find (mmap_of []) ESP_PARTITION_APP_ANY None;
     Find (mmap_of []) ESP_PARTITION_APP_ANY None]
  /\ exists st',
       run_calls sample_magic sample_sec_size
         [Find (mmap_of []) ESP_PARTITION_APP_ANY None;
          Find (mmap_of []) ESP_PARTITION_APP_ANY None] initial_state
       = Some (tt, st')
       /\ load_count st' = 2%nat
       /\ ~ (load_count st' <= 1)%nat.
Proof.
  split; [repeat constructor|].
  eexists. split; [vm_compute; reflexivity|].
  split; [reflexivity | cbn; lia].
Qed.

Lemma empty_table_find_witness :
  exists st',
    esp_partition_find sample_magic sample_sec_size (mmap_of [])
      ESP_PARTITION_APP_ANY None initial_state = Some (NULL, st')
    /\ s_partition_list st' = [].
Proof.
  assert (Hbad : magic (mmap_table (mmap_of []) 0%nat) <> sample_magic)
    by (vm_compute; discriminate).
  destruct (empty_table_find sample_magic sample_sec_size (mmap_of [])
              initial_state ESP_PARTITION_APP_ANY None eq_refl eq_refl Hbad)
    as (_ & _ & st' & Hfind & _ & Hlist & _).
  exists st'. split; [exact Hfind | exact Hlist].
Defined.

Lemma mmap_failure_witness :
  esp_partition_find sample_magic sample_sec_size mmap_failed
    ESP_PARTITION_APP_ANY None initial_state
  = Some (NULL, count_load initial_state)
  /\ load_partitions sample_magic sample_sec_size mmap_failed initial_state
     = Some (0x101, count_load initial_state).
Proof.
  assert (Hne : mmap_err mmap_failed <> ESP_OK) by (vm_compute; discriminate).
  destruct (mmap_failure sample_magic sample_sec_size mmap_failed
              initial_state ESP_PARTITION_APP_ANY None Hne eq_refl)
    as (Hload & Hfind & _).
  split; [exact Hfind | exact Hload].
Defined.

(** C9 as stated fails: after esp_partition_next has ended the iteration by
    running off the list, the iterator is already freed, and releasing it is
    a second free. *)
Lemma release_exhausted_counterexample :
  exists l st1 st2,
    esp_partition_find sample_magic sample_sec_size
      (mmap_of [d_factory; d_nvs; d_ota0]) ESP_PARTITION_DATA_ANY None
      initial_state = Some (Some l, st1)
    /\ esp_partition_next (Some l) st1 = Some (NULL, st2)
    /\ esp_partition_iterator_release (Some l) st2 = None.
Proof.
  eexists _, _, _. split; [vm_compute; reflexivity|].
  split; [vm_compute; reflexivity|].
  vm_compute. reflexivity.
Qed.

(** * Further properties of the loader *)

Section LoaderOrder.

Variable ESP_PARTITION_MAGIC : Z.
Variable SPI_FLASH_SEC_SIZE : Z.

Local Abbreviation nslots := (slot_count SPI_FLASH_SEC_SIZE).
Local Abbreviation load :=
  (load_partitions ESP_PARTITION_MAGIC SPI_FLASH_SEC_SIZE).

(** X1: since [last] stays NULL, load_partitions puts every item at the head
    of the list: after the load of N good descriptors followed by a bad one
    the list holds their items in the reverse of the order of the
    descriptors, in front of what it held before. *)
Theorem load_partitions_order (mm : mmap_result) (st : state) (N : nat) :
  mmap_err mm = ESP_OK ->
  (N < nslots)%nat ->
  (forall i, (i < N)%nat -> magic (mmap_table mm i) = ESP_PARTITION_MAGIC) ->
  magic (mmap_table mm N) <> ESP_PARTITION_MAGIC ->
  exists st',
    load mm st = Some (ESP_OK, st')
    /\ s_partition_list st'
       = rev (map (fun i => new_item (mmap_table mm i)) (seq 0 N))
         ++ s_partition_list st
    /\ (forall i, (i < N)%nat ->
          nth_error (s_partition_list st') i
          = Some (new_item (mmap_table mm (N - 1 - i)%nat)))
    /\ heap st' = heap st
    /\ load_count st' = S (load_count st).
Proof.
  intros Hok HN Hgood Hbad.
  eexists. split; [apply load_partitions_ok, Hok|].
  cbn [set_list count_load s_partition_list heap load_count].
  rewrite load_loop_rev.
  rewrite (valid_slots_exact ESP_PARTITION_MAGIC (mmap_table mm) 0 _ N)
    by auto.
  split; [reflexivity|].
  split; [|split; reflexivity].
  intros i Hi.
  rewrite nth_error_app1
    by (rewrite length_rev, length_map, length_seq; exact Hi).
  rewrite <- map_rev.
  rewrite nth_error_map.
  assert (Hnth : nth_error (rev (seq 0 N)) i = Some (N - 1 - i)%nat).
  { rewrite nth_error_rev by (rewrite length_seq; exact Hi).
    rewrite length_seq.
    replace (N - S i)%nat with (N - 1 - i)%nat by lia.
    rewrite nth_error_seq.
    repeat match goal with
           | |- context [Nat.ltb ?a ?b] => destruct (Nat.ltb_spec a b)
           end; try lia; try (f_equal; lia). }
  rewrite Hnth. reflexivity.
Qed.

(** X2: every item that a load adds comes from a descriptor with the
    expected magic inside the scanned sector: its address and size are the
    descriptor's, its type key is (type << 8) | subtype, its encrypted flag
    is false and its label buffer has 17 bytes ending in a zero byte. *)
Theorem loaded_item_fields (mm : mmap_result) (st : state) :
  mmap_err mm = ESP_OK ->
  exists st',
    load mm st = Some (ESP_OK, st')
    /\ forall item,
         In item (s_partition_list st') ->
         In item (s_partition_list st)
         \/ exists i,
              (i < nslots)%nat
              /\ magic (mmap_table mm i) = ESP_PARTITION_MAGIC
              /\ address (info item) = pos_offset (mmap_table mm i)
              /\ size (info item) = pos_size (mmap_table mm i)
              /\ type (info item)
                 = Z.lor (Z.shiftl (type_ (mmap_table mm i)) 8)
                     (subtype (mmap_table mm i))
              /\ encrypted (info item) = false
              /\ length (label (info item)) = 17%nat
              /\ nth 16 (label (info item)) Byte.x01 = Byte.x00.
Proof.
  intros Hok. eexists. split; [apply load_partitions_ok, Hok|].
  cbn [set_list count_load s_partition_list].
  rewrite load_loop_rev. intros item Hin.
  apply in_app_or in Hin as [Hin|Hin]; [right|left; exact Hin].
  apply in_rev, in_map_iff in Hin as (i & <- & Hi).
  apply in_seq in Hi.
  pose proof (valid_slots_le ESP_PARTITION_MAGIC (mmap_table mm) 0 nslots).
  exists i. split; [lia|].
  split.
  { apply (valid_slots_valid ESP_PARTITION_MAGIC (mmap_table mm) 0 nslots i).
    lia. }
  cbn [new_item info address size type encrypted label].
  repeat (split; [reflexivity|]).
  split.
  - rewrite length_app, strncpy_length. reflexivity.
  - rewrite app_nth2; rewrite strncpy_length; [reflexivity|].
    unfold sizeof_info_label. lia.
Qed.

End LoaderOrder.

Lemma load_partitions_order_witness :
  exists st',
    load_partitions sample_magic sample_sec_size
      (mmap_of [d_factory; d_nvs; d_phy]) initial_state = Some (ESP_OK, st')
    /\ s_partition_list st'
       = [new_item d_phy; new_item d_nvs; new_item d_factory].
Proof.
  assert (HN : (3 < slot_count sample_sec_size)%nat) by (vm_compute; lia).
  assert (Hgood : forall i, (i < 3)%nat ->
                    magic (mmap_table (mmap_of [d_factory; d_nvs; d_phy]) i)
                    = sample_magic).
  { intros [|[|[|i]]] Hi; [reflexivity|reflexivity|reflexivity|lia]. }
  assert (Hbad : magic (mmap_table (mmap_of [d_factory; d_nvs; d_phy]) 3)
                 <> sample_magic) by (vm_compute; discriminate).
  destruct (load_partitions_order sample_magic sample_sec_size
              (mmap_of [d_factory; d_nvs; d_phy]) initial_state 3
              eq_refl HN Hgood Hbad) as (st' & Hload & Hlist & _).
  exists st'. split; [exact Hload | exact Hlist].
Defined.

Lemma loaded_item_fields_witness :
  exists st',
    load_partitions sample_magic sample_sec_size
      (mmap_of [d_factory; d_nvs; d_phy]) initial_state = Some (ESP_OK, st')
    /\ forall item, In item (s_partition_list st') ->
                    encrypted (info item) = false.
Proof.
  destruct (loaded_item_fields sample_magic sample_sec_size
              (mmap_of [d_factory; d_nvs; d_phy]) initial_state eq_refl)
    as (st' & Hload & Hfields).
  exists st'. split; [exact Hload|].
  intros item Hin.
  destruct (Hfields item Hin) as [[]|(i & _ & _ & _ & _ & _ & He & _)].
  exact He.
Defined.

(** * Further properties of the iterator *)

Lemma scan_suffix (t : Z) (lbl : option (list Byte.byte))
  (rem : list partition_list_item_t) :
  exists pre,
    rem = pre ++ scan t lbl rem
    /\ Forall (fun i => continues t lbl (info i) = true) pre.
Proof.
  induction rem as [|y r (pre & Hpre & Hall)]; cbn.
  - exists []. split; [reflexivity | constructor].
  - destruct (continues t lbl (info y)) eqn:Hy.
    + exists (y :: pre). split; [cbn; f_equal; exact Hpre|].
      constructor; assumption.
    + exists []. split; [reflexivity | constructor].
Qed.

Lemma scan_all_continue (t : Z) (lbl : option (list Byte.byte))
  (rem : list partition_list_item_t) :
  scan t lbl rem = [] <->
  (forall x, In x rem -> continues t lbl (info x) = true).
Proof.
  split.
  - intros Hs x Hx. destruct (scan_suffix t lbl rem) as (pre & Hpre & Hall).
    rewrite Hs, app_nil_r in Hpre. subst pre.
    rewrite List.Forall_forall in Hall. apply Hall, Hx.
  - induction rem as [|y r IH]; intros Hall; cbn; [reflexivity|].
    rewrite (Hall y (or_introl eq_refl)). apply IH.
    intros x Hx. apply Hall. right. exact Hx.
Qed.

Lemma last_default {A : Type} (l : list A) (d d' : A) :
  l <> [] -> List.last l d = List.last l d'.
Proof.
  induction l as [|a l IH]; intros Hne; [contradiction|].
  destruct l as [|b l]; [reflexivity|].
  change (List.last (b :: l) d = List.last (b :: l) d').
  apply IH. discriminate.
Qed.

Lemma last_cons {A : Type} (y : A) (r : list A) (d : A) :
  List.last (y :: r) d = List.last r y.
Proof.
  destruct r as [|b r]; [reflexivity|].
  change (List.last (b :: r) d = List.last (b :: r) y).
  apply last_default. discriminate.
Qed.

Lemma last_app_nonempty {A : Type} (l1 l2 : list A) (d : A) :
  l2 <> [] -> List.last (l1 ++ l2) d = List.last l2 d.
Proof.
  intros Hne. induction l1 as [|a l1 IH]; [reflexivity|].
  cbn [app]. destruct (l1 ++ l2) as [|b l] eqn:Happ.
  - apply app_eq_nil in Happ as [_ ->]. contradiction.
  - change (List.last (b :: l) d = List.last l2 d). exact IH.
Qed.

(** The item the loop stops at and the items after it end where the list
    ends. *)
Lemma scan_last (t : Z) (lbl : option (list Byte.byte))
  (y item : partition_list_item_t) (r rest : list partition_list_item_t) :
  scan t lbl (y :: r) = item :: rest -> List.last r y = List.last rest item.
Proof.
  intros Hs. destruct (scan_suffix t lbl (y :: r)) as (pre & Hpre & _).
  rewrite Hs in Hpre.
  rewrite <- (last_cons y r y), <- (last_cons item rest y), Hpre.
  apply last_app_nonempty. discriminate.
Qed.

Section IterateFinal.

Variable t : Z.
Variable lbl : option (list Byte.byte).

Local Abbreviation stops := (fun i => negb (continues t lbl (info i))).

(** The calls of esp_partition_next up to the NULL, with the state they
    leave: the iterator is freed by the last call when the last item of the
    list does not match, and stays allocated, at the end of the list, when
    it does. *)
Lemma iterate_final (n : nat) :
  forall (y : partition_list_item_t) (r : list partition_list_item_t)
         (l : positive) (inf : option esp_partition_t) (st : state),
    (length (List.filter stops (y :: r)) <= n)%nat ->
    heap st !! l = Some (mk_iterator t lbl (y :: r) inf) ->
    iterate (S n) (Some l) st
    = Some (map (fun i => Some (info i)) (List.filter stops (y :: r))
              ++ [None],
            set_heap
              (if continues t lbl (info (List.last r y))
               then delete l (heap st)
               else <[l := mk_iterator t lbl []
                              (Some (info (List.last r y)))]> (heap st)) st).
Proof.
  induction n as [|n IH]; intros y r l inf st Hn Hl.
  - rewrite iterate_S. unfold bind. rewrite (next_live l _ st Hl).
    cbn [next_item it_type it_label].
    destruct (scan t lbl (y :: r)) as [|item rest] eqn:Hs.
    + rewrite (scan_nil _ _ _ Hs).
      assert (Hlast : continues t lbl (info (List.last r y)) = true).
      { apply (proj1 (scan_all_continue t lbl (y :: r)) Hs).
        rewrite <- (last_cons y r y).
        destruct (exists_last (l := y :: r) ltac:(discriminate))
          as (q & a & Hq).
        rewrite Hq, last_last. apply in_or_app. right. left. reflexivity. }
      rewrite Hlast. reflexivity.
    + destruct (scan_cons _ _ _ _ _ Hs) as (Hf & _ & _). rewrite Hf in Hn.
      cbn in Hn. lia.
  - rewrite iterate_S. unfold bind at 1. rewrite (next_live l _ st Hl).
    cbn [next_item it_type it_label].
    destruct (scan t lbl (y :: r)) as [|item rest] eqn:Hs.
    + rewrite (scan_nil _ _ _ Hs).
      assert (Hlast : continues t lbl (info (List.last r y)) = true).
      { apply (proj1 (scan_all_continue t lbl (y :: r)) Hs).
        rewrite <- (last_cons y r y).
        destruct (exists_last (l := y :: r) ltac:(discriminate))
          as (q & a & Hq).
        rewrite Hq, last_last. apply in_or_app. right. left. reflexivity. }
      rewrite Hlast. reflexivity.
    + destruct (scan_cons _ _ _ _ _ Hs) as (Hf & _ & Hitem).
      rewrite Hf in *. cbn [length] in Hn.
      rewrite (scan_last _ _ _ _ _ _ Hs).
      set (st1 := set_heap _ st).
      assert (Hl1 : heap st1 !! l
                    = Some (mk_iterator t lbl rest (Some (info item)))).
      { subst st1. cbn [heap set_heap]. apply lookup_insert_eq. }
      unfold bind at 1. rewrite (get_live l _ st1 Hl1). cbn [it_info].
      unfold bind at 1.
      destruct rest as [|y' r'].
      * rewrite iterate_S. unfold bind at 1. rewrite (next_live l _ st1 Hl1).
        cbn [next_item List.last]. rewrite Hitem. subst st1. reflexivity.
      * rewrite (IH y' r' l (Some (info item)) st1 ltac:(lia) Hl1).
        subst st1. cbn [heap set_heap].
        rewrite set_heap_set_heap, delete_insert_eq, insert_insert_eq.
        rewrite (last_cons y' r' item).
        reflexivity.
Qed.

End IterateFinal.

Lemma accepted_records (t : Z) (lbl : option (list Byte.byte))
  (l : list partition_list_item_t) :
  map (fun i => Some (info i))
    (List.filter (fun i => negb (continues t lbl (info i))) l)
  = map Some
      (List.filter (spec_accepts (get_major_type t) (get_minor_type t) lbl)
         (map info l)).
Proof.
  rewrite <- filter_map_info, map_map.
  rewrite (filter_ext_bool
             (fun i => negb (continues t lbl (info i)))
             (fun i => spec_accepts (get_major_type t) (get_minor_type t) lbl
                         (info i))).
  - reflexivity.
  - intros x. rewrite continues_spec_accepts. apply negb_involutive.
Qed.

Section IteratorProperties.

Variable ESP_PARTITION_MAGIC : Z.
Variable SPI_FLASH_SEC_SIZE : Z.

Local Abbreviation nslots := (slot_count SPI_FLASH_SEC_SIZE).
Local Abbreviation loaded_state :=
  (loaded ESP_PARTITION_MAGIC SPI_FLASH_SEC_SIZE).
Local Abbreviation find :=
  (esp_partition_find ESP_PARTITION_MAGIC SPI_FLASH_SEC_SIZE).
Local Abbreviation find_first :=
  (esp_partition_find_first ESP_PARTITION_MAGIC SPI_FLASH_SEC_SIZE).
Local Abbreviation enum :=
  (enumerate ESP_PARTITION_MAGIC SPI_FLASH_SEC_SIZE).
Local Abbreviation run :=
  (run_calls ESP_PARTITION_MAGIC SPI_FLASH_SEC_SIZE).

Lemma loaded_heap (mm : mmap_result) (st : state) :
  heap (loaded_state mm st) = heap st.
Proof.
  unfold loaded. destruct (SLIST_EMPTY _); [|reflexivity].
  destruct (negb _); reflexivity.
Qed.

(** find and next up to the NULL on a list that is not empty, with the state
    they leave. *)
Lemma enumerate_final (mm : mmap_result) (t : Z)
  (lbl : option (list Byte.byte)) (st : state) (n : nat)
  (y : partition_list_item_t) (r : list partition_list_item_t) :
  s_partition_list (loaded_state mm st) = y :: r ->
  (length (List.filter (fun i => negb (continues t lbl (info i))) (y :: r))
   <= n)%nat ->
  enum mm t lbl (S n) st
  = Some (map (fun i => Some (info i))
            (List.filter (fun i => negb (continues t lbl (info i))) (y :: r))
            ++ [None],
          set_heap
            (if continues t lbl (info (List.last r y))
             then heap st
             else <[fresh (dom (heap st))
                    := mk_iterator t lbl [] (Some (info (List.last r y)))]>
                    (heap st))
            (loaded_state mm st)).
Proof.
  intros Hlist Hn. unfold enumerate. unfold bind at 1.
  rewrite find_result. cbn zeta. rewrite loaded_heap.
  set (st1 := loaded_state mm st) in *.
  set (l := fresh (dom (heap st))).
  assert (Hh : heap st1 = heap st) by apply loaded_heap.
  rewrite Hlist.
  destruct (scan t lbl (y :: r)) as [|item rest] eqn:Hs.
  - rewrite (scan_nil _ _ _ Hs).
    assert (Hlast : continues t lbl (info (List.last r y)) = true).
    { apply (proj1 (scan_all_continue t lbl (y :: r)) Hs).
      rewrite <- (last_cons y r y).
      destruct (exists_last (l := y :: r) ltac:(discriminate))
        as (q & a & Hq).
      rewrite Hq, last_last. apply in_or_app. right. left. reflexivity. }
    rewrite Hlast, <- Hh, set_heap_id. reflexivity.
  - destruct (scan_cons _ _ _ _ _ Hs) as (Hf & _ & Hitem).
    rewrite Hf in *. cbn [length] in Hn.
    rewrite (scan_last _ _ _ _ _ _ Hs).
    set (st2 := set_heap _ st1).
    assert (Hl2 : heap st2 !! l
                  = Some (mk_iterator t lbl rest (Some (info item)))).
    { subst st2. cbn [heap set_heap]. apply lookup_insert_eq. }
    unfold bind at 1. rewrite (get_live l _ st2 Hl2). cbn [it_info].
    unfold bind at 1.
    destruct n as [|n]; [lia|].
    destruct rest as [|y' r'].
    + rewrite iterate_S. unfold bind at 1. rewrite (next_live l _ st2 Hl2).
      cbn [next_item List.last]. rewrite Hitem. subst st2. reflexivity.
    + rewrite (iterate_final t lbl n y' r' l (Some (info item)) st2
                 ltac:(cbn [length] in Hn; lia) Hl2).
      subst st2. cbn [heap set_heap].
      rewrite set_heap_set_heap, insert_insert_eq.
      rewrite delete_insert_id by (subst l; apply fresh_heap).
      rewrite (last_cons y' r' item). reflexivity.
Qed.

(** X3: on a list that is not empty and holds no record the filter accepts,
    esp_partition_find returns NULL and leaves the state exactly as it was:
    nothing is loaded and the iterator it created is freed. *)
Theorem find_no_match (mm : mmap_result) (t : Z)
  (lbl : option (list Byte.byte)) (st : state) :
  s_partition_list st <> [] ->
  (forall item, In item (s_partition_list st) ->
                continues t lbl (info item) = true) ->
  find mm t lbl st = Some (NULL, st)
  /\ find_first mm t lbl st = Some (NULL, st).
Proof.
  intros Hne Hall.
  apply scan_all_continue in Hall.
  split.
  - rewrite find_result. cbn zeta. rewrite (loaded_nonempty _ _ mm st Hne).
    rewrite Hall.
    destruct (s_partition_list st); [contradiction | reflexivity].
  - rewrite find_first_result. cbn zeta.
    rewrite (loaded_nonempty _ _ mm st Hne).
    rewrite scan_find, Hall.
    destruct (s_partition_list st); [contradiction | reflexivity].
Qed.

(** X4: on a table without any record (the mapping succeeds and the first
    descriptor has a bad magic) esp_partition_find returns NULL through the
    first test of esp_partition_next, which does not release: the iterator
    that iterator_create allocated stays in the heap, at an address the
    caller never gets. *)
Theorem find_empty_table_keeps_iterator (mm : mmap_result) (t : Z)
  (lbl : option (list Byte.byte)) (st : state) :
  mmap_err mm = ESP_OK ->
  s_partition_list st = [] ->
  magic (mmap_table mm 0%nat) <> ESP_PARTITION_MAGIC ->
  let l := fresh (dom (heap st)) in
  heap st !! l = None
  /\ find mm t lbl st
     = Some (NULL,
             set_heap (<[l := mk_iterator t lbl [] NULL]> (heap st))
               (count_load st)).
Proof.
  intros Hok Hlist Hbad l. split; [apply fresh_heap|].
  assert (Hst1 : loaded_state mm st = count_load st).
  { unfold loaded. rewrite Hlist. cbn [SLIST_EMPTY]. rewrite Hok.
    cbn [negb ESP_OK Z.eqb]. rewrite <- Hlist at 1.
    rewrite load_loop_rev, (valid_slots_first_bad _ _ _ Hbad), Hlist.
    apply set_list_same. exact Hlist. }
  rewrite find_result. cbn zeta. rewrite Hst1.
  change (s_partition_list (count_load st)) with (s_partition_list st).
  rewrite Hlist, Hok. reflexivity.
Qed.

(** X5: esp_partition_find followed by esp_partition_next yields the records
    of the list that the filter (major type, minor type or wildcard, label)
    accepts, in the order of the list and each once, then NULL; the list is
    the one the find found or loaded, and stays as it is. *)
Theorem enumerate_filter (mm : mmap_result) (t : Z)
  (lbl : option (list Byte.byte)) (st : state) (n : nat) :
  let records := map info (s_partition_list (loaded_state mm st)) in
  let accepted :=
    List.filter (spec_accepts (get_major_type t) (get_minor_type t) lbl)
      records in
  (length accepted <= n)%nat ->
  exists st',
    enum mm t lbl (S n) st = Some (map Some accepted ++ [None], st')
    /\ s_partition_list st' = s_partition_list (loaded_state mm st)
    /\ load_count st' = load_count (loaded_state mm st).
Proof.
  intros records accepted Hn. subst records accepted.
  destruct (s_partition_list (loaded_state mm st)) as [|y r] eqn:Hlist.
  - unfold enumerate. unfold bind at 1. rewrite find_result. cbn zeta.
    rewrite Hlist.
    destruct (_ && _);
      (eexists; split; [reflexivity|];
       cbn [s_partition_list set_heap load_count]; rewrite ?Hlist;
       split; reflexivity).
  - assert (Hlen : (length (List.filter
                              (fun i => negb (continues t lbl (info i)))
                              (y :: r)) <= n)%nat).
    { pose proof (f_equal (@length _) (accepted_records t lbl (y :: r))) as E.
      rewrite !length_map in E. rewrite E. exact Hn. }
    rewrite <- accepted_records.
    eexists. split; [apply (enumerate_final mm t lbl st n y r Hlist Hlen)|].
    cbn [s_partition_list set_heap load_count]. rewrite Hlist. auto.
Qed.

(** X6: when the iteration of a list is run to its NULL, the iterator is
    freed exactly when the last item of the list does not match the filter;
    when the last item matches, the final call returns NULL without
    releasing and the iterator stays allocated. *)
Theorem enumerate_release (mm : mmap_result) (t : Z)
  (lbl : option (list Byte.byte)) (st : state) (n : nat)
  (pre : list partition_list_item_t) (x : partition_list_item_t) :
  s_partition_list (loaded_state mm st) = pre ++ [x] ->
  (length (pre ++ [x]) <= n)%nat ->
  exists res st',
    enum mm t lbl (S n) st = Some (res, st')
    /\ List.last res (Some (info x)) = None
    /\ heap st'
       = if continues t lbl (info x)
         then heap st
         else <[fresh (dom (heap st))
                := mk_iterator t lbl [] (Some (info x))]> (heap st).
Proof.
  intros Hlist Hn.
  destruct (pre ++ [x]) as [|y r] eqn:Hpre.
  { destruct pre; discriminate. }
  assert (Hlast : List.last r y = x).
  { rewrite <- (last_cons y r y), <- Hpre. apply last_last. }
  assert (Hlen : (length (List.filter
                            (fun i => negb (continues t lbl (info i)))
                            (y :: r)) <= n)%nat).
  { pose proof (List.filter_length_le
                  (fun i => negb (continues t lbl (info i))) (y :: r)).
    lia. }
  eexists _, _. split; [apply (enumerate_final mm t lbl st n y r Hlist Hlen)|].
  split; [apply last_last|].
  cbn [heap set_heap]. rewrite Hlast. reflexivity.
Qed.

End IteratorProperties.

Lemma accessors_live (l : positive) (v : esp_partition_iterator_opaque_t)
  (r : esp_partition_t) (st : state) :
  heap st !! l = Some v ->
  it_info v = Some r ->
  esp_partition_get (Some l) st = Some (Some r, st)
  /\ esp_partition_type (Some l) st = Some (type r, st)
  /\ esp_partition_size (Some l) st = Some (size r, st)
  /\ esp_partition_address (Some l) st = Some (address r, st)
  /\ esp_partition_label (Some l) st = Some (label r, st).
Proof.
  intros Hl Hr.
  assert (Hg : esp_partition_get (Some l) st = Some (Some r, st))
    by (rewrite (get_live l v st Hl), Hr; reflexivity).
  unfold esp_partition_type, esp_partition_size, esp_partition_address,
    esp_partition_label, current, bind.
  rewrite Hg. repeat split; reflexivity.
Qed.

Section AccessorProperties.

Variable ESP_PARTITION_MAGIC : Z.
Variable SPI_FLASH_SEC_SIZE : Z.

Local Abbreviation loaded_state :=
  (loaded ESP_PARTITION_MAGIC SPI_FLASH_SEC_SIZE).
Local Abbreviation find :=
  (esp_partition_find ESP_PARTITION_MAGIC SPI_FLASH_SEC_SIZE).

(** X7: an iterator that esp_partition_find returns is positioned: its
    current record is a record of the list that the filter accepts, and
    esp_partition_get, esp_partition_type, esp_partition_size,
    esp_partition_address and esp_partition_label return that record and
    its fields without changing the state. *)
Theorem find_accessors (mm : mmap_result) (t : Z)
  (lbl : option (list Byte.byte)) (st st' : state) (l : positive) :
  find mm t lbl st = Some (Some l, st') ->
  exists r,
    In r (map info (s_partition_list st'))
    /\ spec_accepts (get_major_type t) (get_minor_type t) lbl r = true
    /\ esp_partition_get (Some l) st' = Some (Some r, st')
    /\ esp_partition_type (Some l) st' = Some (type r, st')
    /\ esp_partition_size (Some l) st' = Some (size r, st')
    /\ esp_partition_address (Some l) st' = Some (address r, st')
    /\ esp_partition_label (Some l) st' = Some (label r, st').
Proof.
  rewrite find_result. cbn zeta.
  set (st1 := loaded_state mm st).
  destruct (s_partition_list st1) as [|y r0] eqn:Hlist.
  { destruct (_ && _); discriminate. }
  destruct (scan t lbl (y :: r0)) as [|item rest] eqn:Hs; [discriminate|].
  intros H. injection H as <- <-.
  destruct (scan_cons _ _ _ _ _ Hs) as (_ & _ & Hitem).
  destruct (scan_suffix t lbl (y :: r0)) as (pre & Hpre & _).
  rewrite Hs in Hpre.
  exists (info item). split.
  { cbn [s_partition_list set_heap]. rewrite Hlist, Hpre.
    apply in_map, in_or_app. right. left. reflexivity. }
  split.
  { pose proof (continues_spec_accepts t lbl (info item)) as Hc.
    rewrite Hitem in Hc. destruct (spec_accepts _ _ _ _);
      [reflexivity | discriminate]. }
  eapply accessors_live;
    [cbn [heap set_heap]; apply lookup_insert_eq | reflexivity].
Qed.

(** X9: on a list that is not empty, esp_partition_find followed by
    esp_partition_iterator_release of what it returned, an iterator or
    NULL, leaves the state exactly as it was. *)
Theorem find_release_roundtrip (mm : mmap_result) (t : Z)
  (lbl : option (list Byte.byte)) (st : state) :
  s_partition_list st <> [] ->
  (do it <- find mm t lbl; esp_partition_iterator_release it) st
  = Some (tt, st).
Proof.
  intros Hne. unfold bind. rewrite find_result. cbn zeta.
  rewrite (loaded_nonempty _ _ mm st Hne).
  destruct (s_partition_list st) as [|y r]; [contradiction|].
  destruct (scan t lbl (y :: r)) as [|item rest]; [reflexivity|].
  unfold esp_partition_iterator_release, free. cbn [heap set_heap].
  rewrite lookup_insert_eq.
  rewrite delete_insert_id by apply fresh_heap.
  rewrite set_heap_set_heap, set_heap_id. reflexivity.
Qed.

(** X11: esp_partition_find does not touch the iterators that are live when
    it is called, and the iterator it returns is none of them. *)
Theorem find_frame (mm : mmap_result) (t : Z)
  (lbl : option (list Byte.byte)) (st st' : state)
  (it : esp_partition_iterator_t) :
  find mm t lbl st = Some (it, st') ->
  forall l v,
    heap st !! l = Some v ->
    heap st' !! l = Some v /\ it <> Some l.
Proof.
  rewrite find_result. cbn zeta.
  set (st1 := loaded_state mm st).
  assert (Hh : heap st1 = heap st) by apply loaded_heap.
  intros H l v Hl.
  assert (Hfresh : fresh (dom (heap st1)) <> l).
  { intros <-. rewrite Hh, fresh_heap in Hl. discriminate. }
  destruct (s_partition_list st1) as [|y r].
  - destruct (_ && _); injection H as <- <-; cbn [heap set_heap].
    + rewrite Hh. split; [exact Hl | discriminate].
    + rewrite lookup_insert_ne by exact Hfresh.
      rewrite Hh. split; [exact Hl | discriminate].
  - destruct (scan t lbl (y :: r)) as [|item rest];
      injection H as <- <-; cbn [heap set_heap].
    + rewrite Hh. split; [exact Hl | discriminate].
    + rewrite lookup_insert_ne by exact Hfresh.
      rewrite Hh. split; [exact Hl | congruence].
Qed.

End AccessorProperties.

(** X8: when esp_partition_next returns an iterator it is the one it was
    given, moved to the first of its remaining items that its filter
    accepts; the accessors then return that record and its fields. *)
Theorem next_accessors (it : esp_partition_iterator_t) (st st' : state)
  (l : positive) :
  esp_partition_next it st = Some (Some l, st') ->
  it = Some l
  /\ exists v r,
       heap st !! l = Some v
       /\ In r (map info (next_item v))
       /\ spec_accepts (get_major_type (it_type v))
            (get_minor_type (it_type v)) (it_label v) r = true
       /\ esp_partition_get (Some l) st' = Some (Some r, st')
       /\ esp_partition_type (Some l) st' = Some (type r, st')
       /\ esp_partition_size (Some l) st' = Some (size r, st')
       /\ esp_partition_address (Some l) st' = Some (address r, st')
       /\ esp_partition_label (Some l) st' = Some (label r, st').
Proof.
  destruct it as [l0|]; [|discriminate].
  destruct (heap st !! l0) as [v|] eqn:Hl.
  2:{ unfold esp_partition_next, bind, deref. rewrite Hl. discriminate. }
  rewrite (next_live l0 v st Hl).
  destruct (next_item v) as [|y r0] eqn:Hn; [discriminate|].
  destruct (scan (it_type v) (it_label v) (y :: r0)) as [|item rest] eqn:Hs;
    [discriminate|].
  intros H. injection H as -> <-.
  split; [reflexivity|].
  destruct (scan_cons _ _ _ _ _ Hs) as (_ & _ & Hitem).
  destruct (scan_suffix (it_type v) (it_label v) (y :: r0))
    as (pre & Hpre & _).
  rewrite Hs in Hpre.
  exists v, (info item). split; [exact Hl|].
  split.
  { rewrite Hn, Hpre. apply in_map, in_or_app. right. left. reflexivity. }
  split.
  { pose proof (continues_spec_accepts (it_type v) (it_label v) (info item))
      as Hc.
    rewrite Hitem in Hc. destruct (spec_accepts _ _ _ _);
      [reflexivity | discriminate]. }
  eapply accessors_live;
    [cbn [heap set_heap]; apply lookup_insert_eq | reflexivity].
Qed.

(** X10: esp_partition_next changes no iterator but the one it is given. *)
Theorem next_frame (it : esp_partition_iterator_t) (st st' : state)
  (res : esp_partition_iterator_t) :
  esp_partition_next it st = Some (res, st') ->
  forall l, it <> Some l -> heap st' !! l = heap st !! l.
Proof.
  destruct it as [l0|]; [|discriminate].
  destruct (heap st !! l0) as [v|] eqn:Hl.
  2:{ unfold esp_partition_next, bind, deref. rewrite Hl. discriminate. }
  rewrite (next_live l0 v st Hl).
  intros H l Hne. assert (l0 <> l) by congruence.
  destruct (next_item v) as [|y r0].
  { injection H as _ <-. reflexivity. }
  destruct (scan (it_type v) (it_label v) (y :: r0)) as [|item rest];
    injection H as _ <-; cbn [heap set_heap].
  - apply lookup_delete_ne. assumption.
  - apply lookup_insert_ne. assumption.
Qed.

(** * Iterators point into the list *)

Lemma in_list_insert (st : state) (l : positive)
  (v : esp_partition_iterator_opaque_t) :
  iterators_in_list st ->
  (exists pre, s_partition_list st = pre ++ next_item v) ->
  (forall r, it_info v = Some r -> In r (map info (s_partition_list st))) ->
  iterators_in_list (set_heap (<[l := v]> (heap st)) st).
Proof.
  intros Hinv Hsuf Hinfo l' v'. cbn [heap set_heap s_partition_list].
  destruct (decide (l = l')) as [<-|Hne].
  - rewrite lookup_insert_eq. intros H. injection H as <-. auto.
  - rewrite lookup_insert_ne by exact Hne. apply Hinv.
Qed.

Lemma in_list_delete (st : state) (l : positive) :
  iterators_in_list st ->
  iterators_in_list (set_heap (delete l (heap st)) st).
Proof.
  intros Hinv l' v'. cbn [heap set_heap s_partition_list].
  intros H. apply lookup_delete_Some in H as [_ H]. apply (Hinv _ _ H).
Qed.

Lemma in_list_nil (st : state) (l : positive)
  (v : esp_partition_iterator_opaque_t) :
  iterators_in_list st ->
  s_partition_list st = [] ->
  heap st !! l = Some v ->
  next_item v = [] /\ it_info v = None.
Proof.
  intros Hinv Hlist Hl. destruct (Hinv l v Hl) as ((pre & Hpre) & Hinfo).
  rewrite Hlist in *. symmetry in Hpre. apply app_eq_nil in Hpre as [_ Hn].
  split; [exact Hn|].
  destruct (it_info v) as [r|]; [|reflexivity].
  destruct (Hinfo r eq_refl).
Qed.

Section InvariantProperties.

Variable ESP_PARTITION_MAGIC : Z.
Variable SPI_FLASH_SEC_SIZE : Z.

Local Abbreviation loaded_state :=
  (loaded ESP_PARTITION_MAGIC SPI_FLASH_SEC_SIZE).
Local Abbreviation run :=
  (run_calls ESP_PARTITION_MAGIC SPI_FLASH_SEC_SIZE).

Lemma in_list_loaded (mm : mmap_result) (st : state) :
  iterators_in_list st -> iterators_in_list (loaded_state mm st).
Proof.
  intros Hinv. unfold loaded.
  destruct (s_partition_list st) as [|y r] eqn:Hlist; cbn [SLIST_EMPTY];
    [|exact Hinv].
  destruct (negb _).
  - intros l v Hl. cbn [heap count_load s_partition_list] in *.
    apply (Hinv _ _ Hl).
  - intros l v Hl. cbn [heap count_load set_list s_partition_list] in *.
    destruct (in_list_nil st l v Hinv Hlist Hl) as (Hn & Hi).
    rewrite Hn, Hi. split.
    + eexists. rewrite app_nil_r. reflexivity.
    + intros r H. discriminate.
Qed.

Lemma in_list_scan (st : state) (t : Z) (lbl : option (list Byte.byte))
  (l : positive) (inf : option esp_partition_t)
  (rem rest : list partition_list_item_t) (item : partition_list_item_t) :
  iterators_in_list st ->
  (exists pre, s_partition_list st = pre ++ rem) ->
  scan t lbl rem = item :: rest ->
  iterators_in_list
    (set_heap (<[l := mk_iterator t lbl rest (Some (info item))]> (heap st))
       st).
Proof.
  intros Hinv (pre & Hpre) Hs.
  destruct (scan_suffix t lbl rem) as (pre' & Hpre' & _).
  rewrite Hs in Hpre'.
  assert (Hlist : s_partition_list st = (pre ++ pre') ++ item :: rest).
  { rewrite Hpre, Hpre', app_assoc. reflexivity. }
  apply in_list_insert; [exact Hinv| |]; cbn [next_item it_info].
  - exists ((pre ++ pre') ++ [item]). rewrite Hlist, <- !app_assoc.
    reflexivity.
  - intros r H. injection H as <-. rewrite Hlist.
    apply in_map, in_or_app. right. left. reflexivity.
Qed.

Lemma in_list_run_call (c : call) (st st' : state) (u : unit) :
  iterators_in_list st ->
  run_call ESP_PARTITION_MAGIC SPI_FLASH_SEC_SIZE c st = Some (u, st') ->
  iterators_in_list st'.
Proof.
  intros Hinv.
  destruct c as [mm t lbl|mm t lbl|it|it|it]; cbn [run_call].
  - unfold bind at 1. rewrite find_result. cbn zeta.
    pose proof (in_list_loaded mm st Hinv) as Hinv1.
    set (st1 := loaded_state mm st) in *.
    destruct (s_partition_list st1) as [|y r] eqn:Hlist.
    + destruct (_ && _); intros H; injection H as _ <-; [exact Hinv1|].
      apply in_list_insert; [exact Hinv1| |]; cbn [next_item it_info].
      * exists (s_partition_list st1). rewrite app_nil_r. reflexivity.
      * intros r H. discriminate.
    + destruct (scan t lbl (y :: r)) as [|item rest] eqn:Hs;
        intros H; injection H as _ <-; [exact Hinv1|].
      apply (in_list_scan st1 t lbl _ None (y :: r)); [exact Hinv1| |exact Hs].
      exists []. exact Hlist.
  - unfold bind at 1. rewrite find_first_result. cbn zeta.
    pose proof (in_list_loaded mm st Hinv) as Hinv1.
    set (st1 := loaded_state mm st) in *.
    intros H. injection H as _ <-.
    destruct (s_partition_list st1) as [|y r] eqn:Hlist; [|exact Hinv1].
    destruct (_ && _); [exact Hinv1|].
    apply in_list_insert; [exact Hinv1| |]; cbn [next_item it_info].
    + exists (s_partition_list st1). rewrite app_nil_r. reflexivity.
    + intros r H. discriminate.
  - unfold bind at 1. destruct it as [l|]; [|discriminate].
    destruct (heap st !! l) as [v|] eqn:Hl.
    2:{ unfold esp_partition_next, bind, deref. rewrite Hl. discriminate. }
    rewrite (next_live l v st Hl).
    destruct (next_item v) as [|y r] eqn:Hn.
    { intros H. injection H as _ <-. exact Hinv. }
    destruct (scan (it_type v) (it_label v) (y :: r)) as [|item rest] eqn:Hs;
      intros H; injection H as _ <-.
    + apply in_list_delete, Hinv.
    + apply (in_list_scan st _ _ _ (it_info v) (y :: r));
        [exact Hinv| |exact Hs].
      destruct (Hinv l v Hl) as (Hsuf & _). rewrite Hn in Hsuf. exact Hsuf.
  - unfold bind at 1. destruct it as [l|]; [|discriminate].
    destruct (heap st !! l) as [v|] eqn:Hl.
    2:{ unfold esp_partition_get, bind, deref. rewrite Hl. discriminate. }
    rewrite (get_live l v st Hl). intros H. injection H as _ <-. exact Hinv.
  - unfold esp_partition_iterator_release, free.
    destruct it as [l|].
    + destruct (heap st !! l); [|discriminate].
      intros H. injection H as _ <-. apply in_list_delete, Hinv.
    + intros H. injection H as _ <-. exact Hinv.
Qed.

(** X12: whatever the calls of the API, the live iterators keep pointing
    into s_partition_list: the next item of each is a node of the list or
    NULL, and every record that esp_partition_get returns is a record of
    the list. *)
Theorem iterators_stay_in_list (cs : list call) (st st' : state) :
  iterators_in_list st ->
  run cs st = Some (tt, st') ->
  iterators_in_list st'
  /\ forall it r st'',
       esp_partition_get it st' = Some (Some r, st'') ->
       In r (map info (s_partition_list st')).
Proof.
  intros Hinv Hrun.
  assert (Hinv' : iterators_in_list st').
  { revert st Hinv Hrun. induction cs as [|c cs IH]; intros st Hinv Hrun.
    - injection Hrun as <-. exact Hinv.
    - cbn [run_calls] in Hrun. unfold bind at 1 in Hrun.
      destruct (run_call _ _ c st) as [[u st1]|] eqn:Hc; [|discriminate].
      apply (IH st1); [|exact Hrun].
      apply (in_list_run_call c st st1 u Hinv Hc). }
  split; [exact Hinv'|].
  intros it r st'' Hget. destruct it as [l|]; [|discriminate].
  destruct (heap st' !! l) as [v|] eqn:Hl.
  2:{ unfold esp_partition_get, bind, deref in Hget. rewrite Hl in Hget.
      discriminate. }
  rewrite (get_live l v st' Hl) in Hget. injection Hget as Hr _.
  destruct (Hinv' l v Hl) as (_ & Hinfo). apply Hinfo, Hr.
Qed.

End InvariantProperties.

(** * Filters that never match, bits that do not count *)

(** X13: a label filter of more than 16 characters matches no loaded
    record, whatever the descriptor it was built from: the label of a record
    has at most 16 characters. *)
Theorem long_label_never_matches (t : Z) (l : list Byte.byte)
  (d : esp_partition_info_t) :
  (16 < length (cstr l))%nat ->
  continues t (Some l) (info (new_item d)) = true.
Proof.
  intros Hlen. unfold continues.
  destruct (negb (_ =? _)); [reflexivity|].
  destruct (negb (_ =? 255) && _); [reflexivity|].
  destruct (Z.eqb_spec (strcmp l (label (info (new_item d)))) 0) as [Hz|Hnz];
    [|reflexivity].
  exfalso. apply strcmp_zero in Hz. cbn [new_item info label] in Hz.
  rewrite cstr_strncpy in Hz. rewrite Hz in Hlen.
  pose proof (firstn_le_length sizeof_info_label (cstr (info_label d))).
  unfold sizeof_info_label in *. lia.
Qed.

Lemma get_major_type_low_bits (t : Z) :
  get_major_type (Z.land t 65535) = get_major_type t.
Proof.
  unfold get_major_type. rewrite Z.shiftr_land.
  change (Z.shiftr 65535 8) with 255.
  rewrite <- Z.land_assoc, Z.land_diag. reflexivity.
Qed.

Lemma get_minor_type_low_bits (t : Z) :
  get_minor_type (Z.land t 65535) = get_minor_type t.
Proof.
  unfold get_minor_type. rewrite <- Z.land_assoc. reflexivity.
Qed.

Lemma land_255_range (x : Z) : 0 <= Z.land x 255 < 256.
Proof.
  change 255 with (Z.ones 8). rewrite Z.land_ones by lia.
  apply Z.mod_pos_bound. lia.
Qed.

(** X14: only the low 16 bits of the requested type count: the major and
    minor types taken from it are bytes, and the matcher treats a type and
    its low 16 bits alike, for every record and label. *)
Theorem requested_type_low_bits (t : Z) (lbl : option (list Byte.byte))
  (r : esp_partition_t) :
  0 <= get_major_type t < 256
  /\ 0 <= get_minor_type t < 256
  /\ continues (Z.land t 65535) lbl r = continues t lbl r.
Proof.
  split; [apply land_255_range|].
  split; [apply land_255_range|].
  unfold continues.
  rewrite get_major_type_low_bits, get_minor_type_low_bits. reflexivity.
Qed.

(** * The table comes from the flash *)

Section TableProperties.

Variable ESP_PARTITION_MAGIC : Z.
Variable SPI_FLASH_SEC_SIZE : Z.

Local Abbreviation nslots := (slot_count SPI_FLASH_SEC_SIZE).
Local Abbreviation loaded_state :=
  (loaded ESP_PARTITION_MAGIC SPI_FLASH_SEC_SIZE).
Local Abbreviation run :=
  (run_calls ESP_PARTITION_MAGIC SPI_FLASH_SEC_SIZE).
Local Abbreviation from_flash :=
  (table_from_flash ESP_PARTITION_MAGIC SPI_FLASH_SEC_SIZE).

Lemma from_flash_loaded (mm : mmap_result) (st : state) :
  from_flash st -> from_flash (loaded_state mm st).
Proof.
  intros Hinv. unfold loaded.
  destruct (s_partition_list st) as [|y r] eqn:Hlist; cbn [SLIST_EMPTY];
    [|exact Hinv].
  destruct (negb _); [exact Hinv|].
  unfold table_from_flash. cbn [set_list s_partition_list].
  rewrite load_loop_rev, app_nil_r.
  pose proof (valid_slots_le ESP_PARTITION_MAGIC (mmap_table mm) 0 nslots)
    as Hle.
  split.
  - rewrite length_rev, length_map, length_seq. exact Hle.
  - intros item Hin. apply in_rev, in_map_iff in Hin as (i & <- & Hi).
    apply in_seq in Hi. exists (mmap_table mm i). split; [|reflexivity].
    apply (valid_slots_valid ESP_PARTITION_MAGIC (mmap_table mm) 0 nslots i).
    lia.
Qed.

Lemma from_flash_same_list (st st' : state) :
  s_partition_list st' = s_partition_list st ->
  from_flash st -> from_flash st'.
Proof. unfold table_from_flash. intros ->. auto. Qed.

Lemma from_flash_run_call (c : call) (st st' : state) (u : unit) :
  from_flash st ->
  run_call ESP_PARTITION_MAGIC SPI_FLASH_SEC_SIZE c st = Some (u, st') ->
  from_flash st'.
Proof.
  intros Hinv.
  destruct c as [mm t lbl|mm t lbl|it|it|it]; cbn [run_call].
  - unfold bind at 1. rewrite find_result. cbn zeta.
    pose proof (from_flash_loaded mm st Hinv) as Hinv1.
    destruct (s_partition_list (loaded_state mm st)) as [|y r].
    + destruct (_ && _); intros H; injection H as _ <-; exact Hinv1.
    + destruct (scan t lbl (y :: r)); intros H; injection H as _ <-;
        exact Hinv1.
  - unfold bind at 1. rewrite find_first_result. cbn zeta.
    pose proof (from_flash_loaded mm st Hinv) as Hinv1.
    intros H. injection H as _ <-.
    destruct (s_partition_list (loaded_state mm st)) as [|y r];
      [|exact Hinv1].
    destruct (_ && _); exact Hinv1.
  - intros H.
    assert (Hp : preserves (exec esp_partition_next it; ret tt)).
    { apply preserves_bind; [apply preserves_next|].
      intros a. apply preserves_ret. }
    destruct (Hp _ _ _ H) as (Hl & _).
    apply (from_flash_same_list st st' Hl Hinv).
  - intros H.
    assert (Hp : preserves (exec esp_partition_get it; ret tt)).
    { apply preserves_bind; [apply preserves_get|].
      intros a. apply preserves_ret. }
    destruct (Hp _ _ _ H) as (Hl & _).
    apply (from_flash_same_list st st' Hl Hinv).
  - intros H. destruct (preserves_release it _ _ _ H) as (Hl & _).
    apply (from_flash_same_list st st' Hl Hinv).
Qed.


End TableProperties.

(** * The further properties on the sample tables *)

Lemma sample_loaded_list :
  s_partition_list sample_loaded
  = [new_item d_phy; new_item d_nvs; new_item d_factory].
Proof. reflexivity. Qed.

Lemma find_no_match_witness :
  esp_partition_find sample_magic sample_sec_size mmap_failed 0x02ff None
    sample_loaded
  = Some (NULL, sample_loaded).
Proof.
  assert (Hne : s_partition_list sample_loaded <> [])
    by (rewrite sample_loaded_list; discriminate).
  assert (Hall : forall item, In item (s_partition_list sample_loaded) ->
                              continues 0x02ff None (info item) = true).
  { rewrite sample_loaded_list. intros item [<-|[<-|[<-|[]]]]; reflexivity. }
  exact (proj1 (find_no_match sample_magic sample_sec_size mmap_failed 0x02ff
                  None sample_loaded Hne Hall)).
Defined.

Lemma find_empty_table_keeps_iterator_witness :
  exists st',
    esp_partition_find sample_magic sample_sec_size (mmap_of [])
      ESP_PARTITION_APP_ANY None initial_state = Some (NULL, st')
    /\ heap st' !! 1%positive
       = Some (mk_iterator ESP_PARTITION_APP_ANY None [] NULL).
Proof.
  assert (Hbad : magic (mmap_table (mmap_of []) 0%nat) <> sample_magic)
    by (vm_compute; discriminate).
  destruct (find_empty_table_keeps_iterator sample_magic sample_sec_size
              (mmap_of []) ESP_PARTITION_APP_ANY None initial_state
              eq_refl eq_refl Hbad) as (_ & Hfind).
  eexists. split; [exact Hfind|].
  cbn [heap set_heap]. apply lookup_insert_eq.
Defined.

Lemma enumerate_filter_witness :
  exists st',
    enumerate sample_magic sample_sec_size (mmap_of [d_factory; d_nvs; d_phy])
      ESP_PARTITION_DATA_ANY (Some lbl_nvs) 3 initial_state
    = Some ([Some (info (new_item d_nvs)); None], st').
Proof.
  destruct (enumerate_filter sample_magic sample_sec_size
              (mmap_of [d_factory; d_nvs; d_phy]) ESP_PARTITION_DATA_ANY
              (Some lbl_nvs) initial_state 2) as (st' & He & _).
  { vm_compute. lia. }
  exists st'. exact He.
Defined.

Lemma enumerate_release_witness :
  exists res st',
    enumerate sample_magic sample_sec_size (mmap_of [d_factory; d_nvs; d_phy])
      ESP_PARTITION_APP_ANY None 4 initial_state = Some (res, st')
    /\ heap st' !! 1%positive
       = Some (mk_iterator ESP_PARTITION_APP_ANY None []
                 (Some (info (new_item d_factory)))).
Proof.
  destruct (enumerate_release sample_magic sample_sec_size
              (mmap_of [d_factory; d_nvs; d_phy]) ESP_PARTITION_APP_ANY None
              initial_state 3 [new_item d_phy; new_item d_nvs]
              (new_item d_factory) eq_refl)
    as (res & st' & He & _ & Hheap).
  { cbn. lia. }
  exists res, st'. split; [exact He|].
  rewrite Hheap.
  assert (Hc : continues ESP_PARTITION_APP_ANY None (info (new_item d_factory))
               = false) by reflexivity.
  rewrite Hc. apply lookup_insert_eq.
Defined.

Lemma find_accessors_witness :
  exists l st' r,
    esp_partition_find sample_magic sample_sec_size
      (mmap_of [d_factory; d_nvs; d_phy]) ESP_PARTITION_DATA_ANY None
      initial_state = Some (Some l, st')
    /\ esp_partition_address (Some l) st' = Some (address r, st')
    /\ esp_partition_label (Some l) st' = Some (label r, st').
Proof.
  destruct (esp_partition_find sample_magic sample_sec_size
              (mmap_of [d_factory; d_nvs; d_phy]) ESP_PARTITION_DATA_ANY None
              initial_state) as [[[l|] st']|] eqn:Hf.
  - destruct (find_accessors sample_magic sample_sec_size _ _ _ _ _ _ Hf)
      as (r & _ & _ & _ & _ & _ & Ha & Hl).
    exists l, st', r. split; [reflexivity|]. split; [exact Ha | exact Hl].
  - exfalso. vm_compute in Hf. discriminate.
  - exfalso. vm_compute in Hf. discriminate.
Defined.

Lemma next_accessors_witness :
  exists l st' r,
    esp_partition_next (Some 1%positive) sample_two_iterators
    = Some (Some l, st')
    /\ l = 1%positive
    /\ esp_partition_get (Some l) st' = Some (Some r, st').
Proof.
  destruct (esp_partition_next (Some 1%positive) sample_two_iterators)
    as [[[l|] st']|] eqn:Hn.
  - destruct (next_accessors _ _ _ _ Hn)
      as (Hit & v & r & _ & _ & _ & Hg & _).
    exists l, st', r. split; [reflexivity|].
    split; [congruence | exact Hg].
  - exfalso. vm_compute in Hn. discriminate.
  - exfalso. vm_compute in Hn. discriminate.
Defined.

Lemma find_release_roundtrip_witness :
  (do it <- esp_partition_find sample_magic sample_sec_size mmap_failed
              ESP_PARTITION_DATA_ANY None;
   esp_partition_iterator_release it) sample_loaded
  = Some (tt, sample_loaded).
Proof.
  apply find_release_roundtrip.
  rewrite sample_loaded_list. discriminate.
Defined.

Lemma next_frame_witness :
  exists res st',
    esp_partition_next (Some 1%positive) sample_two_iterators
    = Some (res, st')
    /\ heap st' !! 2%positive = heap sample_two_iterators !! 2%positive.
Proof.
  destruct (esp_partition_next (Some 1%positive) sample_two_iterators)
    as [[res st']|] eqn:Hn.
  - exists res, st'. split; [reflexivity|].
    apply (next_frame _ _ _ _ Hn). discriminate.
  - exfalso. vm_compute in Hn. discriminate.
Defined.

Lemma find_frame_witness :
  exists it st' v,
    esp_partition_find sample_magic sample_sec_size mmap_failed
      ESP_PARTITION_DATA_ANY (Some lbl_nvs) sample_two_iterators
    = Some (it, st')
    /\ heap sample_two_iterators !! 1%positive = Some v
    /\ heap st' !! 1%positive = Some v
    /\ it <> Some 1%positive.
Proof.
  destruct (esp_partition_find sample_magic sample_sec_size mmap_failed
              ESP_PARTITION_DATA_ANY (Some lbl_nvs) sample_two_iterators)
    as [[it st']|] eqn:Hf.
  - destruct (heap sample_two_iterators !! 1%positive) as [v|] eqn:Hl.
    + destruct (find_frame _ _ _ _ _ _ _ _ Hf 1%positive v Hl) as (H1 & H2).
      exists it, st', v. repeat split; assumption.
    + exfalso. vm_compute in Hl. discriminate.
  - exfalso. vm_compute in Hf. discriminate.
Defined.

Lemma iterators_stay_in_list_witness :
  iterators_in_list sample_two_iterators.
Proof.
  assert (Hinit : iterators_in_list initial_state).
  { intros l v H. cbn in H. rewrite lookup_empty in H. discriminate. }
  assert (Hrun : run_calls sample_magic sample_sec_size
                   [Find (mmap_of [d_factory; d_nvs; d_phy])
                      ESP_PARTITION_DATA_ANY None;
                    Find (mmap_of [d_factory; d_nvs; d_phy])
                      ESP_PARTITION_APP_ANY None] initial_state
                 = Some (tt, sample_two_iterators))
    by (vm_compute; reflexivity).
  exact (proj1 (iterators_stay_in_list sample_magic sample_sec_size _ _ _
                  Hinit Hrun)).
Defined.

Lemma long_label_never_matches_witness :
  continues ESP_PARTITION_DATA_ANY (Some lbl_17) (info (new_item d_full))
  = true.
Proof.
  apply long_label_never_matches. cbn. lia.
Defined.

